(** * asteroid-dumper: the line formatter, the retrying client and the
      bounded scheduler of [utils.js]

    The development embeds three pieces of [src/utils.js] (the same code is
    duplicated in [src/index.js]):
    - [dataToLines], a pure function over the decoded payload;
    - [HttpClient.get], a bounded retry loop around [fetch];
    - [Concurrency], the self-scheduling worker pool, as a transition system
      whose steps are the resumptions of suspended [#runOne] calls, by the
      settlement of a task or by the rejection of a nested call. *)

From Stdlib Require Import ZArith String Ascii List Sorted Permutation Lia.
From stdpp Require Import base tactics option list relations pretty.
Import ListNotations.
Local Open Scope string_scope.

(** ** dataToLines *)

Module Lines.

(** The parts of the JavaScript runtime that [dataToLines] relies on and that
    are not code of the repository: the numbers of a payload, with
    [ToBoolean] and [Number::toString], and the collation order behind
    [String.prototype.localeCompare]. *)

(** [num_truthy x] is [ToBoolean x]; it is [false] for a zero. *)
Class NumberModel (Num : Type) := {
  num_zero : Num;
  num_truthy : Num -> bool;
  num_to_string : Num -> string;
  num_zero_falsy : num_truthy num_zero = false
}.

(** [localeCompare a b] is negative, zero or positive; a collation is a total
    preorder on strings, which makes it a consistent comparator for
    [Array.prototype.sort]. *)
Class Collator := {
  localeCompare : string -> string -> Z;
  localeCompare_total : forall a b,
    (localeCompare a b <= 0 \/ localeCompare b a <= 0)%Z;
  localeCompare_trans : forall a b c,
    (localeCompare a b <= 0 -> localeCompare b c <= 0 -> localeCompare a c <= 0)%Z
}.

Section DataToLines.
Context {Num : Type} `{NumberModel Num} `{Collator}.

(** A value of [data.rates]: the declared type is [number]; the tests also
    store [null] and [undefined]. *)
Inductive rate :=
| Undefined
| Null
| Number (x : Num).

(** The payload; [rates] lists the object's own properties in the order of
    [Object.entries]. *)
Record payload := { date : string; rates : list (string * rate) }.

(** [options.quotes.includes(quote)] *)
Definition includes (quotes : list string) (quote : string) : bool :=
  existsb (String.eqb quote) quotes.

(** [${rate || ''}]: a falsy rate is replaced by the empty string before
    the template converts it. *)
Definition rate_or_empty (r : rate) : string :=
  match r with
  | Undefined => ""
  | Null => ""
  | Number x => if num_truthy x then num_to_string x else ""
  end.

(** [ToBoolean] on a rate. *)
Definition truthy (r : rate) : bool :=
  match r with
  | Undefined => false
  | Null => false
  | Number x => num_truthy x
  end.

(** [Array.prototype.sort] with a comparator: a stable sort, here by
    insertion from the right. An element goes in front of the first one it
    does not follow, so equal keys keep their order. *)
Fixpoint insert_by {A} (cmp : A -> A -> Z) (x : A) (l : list A) : list A :=
  match l with
  | [] => [x]
  | y :: l' => if (cmp x y <=? 0)%Z then x :: y :: l' else y :: insert_by cmp x l'
  end.

Definition sort_by {A} (cmp : A -> A -> Z) (l : list A) : list A :=
  foldr (insert_by cmp) [] l.

(** The comparator of the source: [prevQuote.localeCompare(nextQuote)]. *)
Definition by_quote (prev next : string * rate) : Z :=
  localeCompare (fst prev) (fst next).

(** The callback of [map]. *)
Definition to_line (d : string) (entry : string * rate) : string * string :=
  (fst entry, d ++ "," ++ rate_or_empty (snd entry)).

Definition dataToLines (data : payload) (quotes : list string)
  : list (string * string) :=
  map (to_line (date data))
    (sort_by by_quote
       (List.filter (fun entry => includes quotes (fst entry)) (rates data))).

(** *** Sorting lemmas *)

Lemma insert_by_perm {A} (cmp : A -> A -> Z) x l :
  Permutation (insert_by cmp x l) (x :: l).
Proof.
  induction l as [|y l IH]; simpl; [reflexivity|].
  destruct (cmp x y <=? 0)%Z; [reflexivity|].
  rewrite IH. apply perm_swap.
Qed.

Lemma sort_by_perm {A} (cmp : A -> A -> Z) l : Permutation (sort_by cmp l) l.
Proof.
  induction l as [|x l IH]; simpl; [reflexivity|].
  rewrite insert_by_perm. now constructor.
Qed.

Definition quote_le (a b : string * rate) : Prop := (by_quote a b <= 0)%Z.

Lemma insert_by_sorted x l :
  StronglySorted quote_le l -> StronglySorted quote_le (insert_by by_quote x l).
Proof.
  induction 1 as [|y l Hs IH Hall]; simpl.
  - repeat constructor.
  - destruct (Z.leb_spec (by_quote x y) 0) as [Hle|Hgt].
    + constructor; [now constructor|].
      constructor; [exact Hle|].
      eapply Forall_impl; [exact Hall|].
      intros z Hz. unfold quote_le, by_quote in *.
      eapply localeCompare_trans; eassumption.
    + constructor; [exact IH|].
      rewrite (insert_by_perm by_quote x l).
      constructor; [|exact Hall].
      unfold quote_le, by_quote in *.
      destruct (localeCompare_total (fst y) (fst x)); [assumption|lia].
Qed.

Lemma sort_by_sorted l : StronglySorted quote_le (sort_by by_quote l).
Proof.
  induction l as [|x l IH]; simpl; [constructor|].
  now apply insert_by_sorted.
Qed.

Lemma includes_In quotes q : includes quotes q = true <-> In q quotes.
Proof.
  unfold includes. rewrite existsb_exists. split.
  - intros (x & Hx & Heq). apply String.eqb_eq in Heq. now subst.
  - intros Hq. exists q. split; [exact Hq|apply String.eqb_refl].
Qed.

Lemma filter_none {A} (P : A -> bool) l :
  (forall x, In x l -> P x = false) -> List.filter P l = [].
Proof.
  induction l as [|x l IH]; simpl; intros Hall; [reflexivity|].
  rewrite (Hall x) by now left. apply IH. intros y Hy. apply Hall. now right.
Qed.

Lemma sorted_map {A B} (R : A -> A -> Prop) (R' : B -> B -> Prop) (f : A -> B) l :
  (forall a b, R a b -> R' (f a) (f b)) ->
  StronglySorted R l -> StronglySorted R' (map f l).
Proof.
  intros Hf. induction 1 as [|x l Hs IH Hall]; simpl; constructor; [exact IH|].
  apply Forall_forall. intros y Hy. apply list_elem_of_In, in_map_iff in Hy.
  destruct Hy as (z & <- & Hz). apply Hf.
  rewrite Forall_forall in Hall. apply Hall, list_elem_of_In, Hz.
Qed.

Definition line_le (a b : string * string) : Prop :=
  (localeCompare (fst a) (fst b) <= 0)%Z.

Lemma dataToLines_sorted data quotes :
  StronglySorted line_le (dataToLines data quotes).
Proof.
  unfold dataToLines.
  apply (sorted_map quote_le); [|apply sort_by_sorted].
  intros a b Hab. exact Hab.
Qed.

Lemma dataToLines_perm data quotes :
  Permutation (dataToLines data quotes)
    (map (to_line (date data))
       (List.filter (fun entry => includes quotes (fst entry)) (rates data))).
Proof. unfold dataToLines. apply Permutation_map, sort_by_perm. Qed.

Lemma In_dataToLines data quotes q line :
  In (q, line) (dataToLines data quotes) <->
  exists r, In (q, r) (rates data) /\ In q quotes /\
            line = date data ++ "," ++ rate_or_empty r.
Proof.
  split.
  - intros Hin. apply (Permutation_in _ (dataToLines_perm data quotes)) in Hin.
    apply in_map_iff in Hin. destruct Hin as ((q' & r) & Heq & Hin).
    apply filter_In in Hin. destruct Hin as (Hin & Hq). simpl in Hq.
    unfold to_line in Heq. simpl in Heq. injection Heq as -> <-.
    exists r. rewrite <- includes_In. auto.
  - intros (r & Hin & Hq & ->).
    apply (Permutation_in _ (Permutation_sym (dataToLines_perm data quotes))).
    apply in_map_iff. exists (q, r). split; [reflexivity|].
    apply filter_In. split; [exact Hin|]. simpl. now apply includes_In.
Qed.

Lemma dataToLines_no_match data quotes :
  (forall q r, In (q, r) (rates data) -> ~ In q quotes) ->
  dataToLines data quotes = [].
Proof.
  intros Hdis. unfold dataToLines. rewrite filter_none; [reflexivity|].
  intros (q & r) Hin. simpl.
  destruct (includes quotes q) eqn:Hq; [|reflexivity].
  apply includes_In in Hq. now apply Hdis in Hin.
Qed.

(** *** More on [dataToLines] *)

Lemma includes_ext quotes quotes' :
  (forall q, In q quotes <-> In q quotes') ->
  forall q, includes quotes q = includes quotes' q.
Proof.
  intros Hsame q.
  destruct (includes quotes q) eqn:H1; destruct (includes quotes' q) eqn:H2;
    try reflexivity.
  - apply includes_In, Hsame, includes_In in H1. congruence.
  - apply includes_In, Hsame, includes_In in H2. congruence.
Qed.

Lemma keys_filter (P : string * rate -> bool) l :
  NoDup (map fst l) -> NoDup (map fst (List.filter P l)).
Proof.
  induction l as [|x l IH]; simpl; intros Hnd; [constructor|].
  apply NoDup_cons in Hnd. destruct Hnd as [Hx Hnd].
  destruct (P x); simpl; [|now apply IH].
  apply NoDup_cons. split; [|now apply IH].
  intros Hin. apply Hx. apply list_elem_of_In in Hin. apply list_elem_of_In.
  apply in_map_iff in Hin. destruct Hin as (y & Hy & Hin).
  apply filter_In in Hin. apply in_map_iff. exists y. tauto.
Qed.

Lemma keys_dataToLines data quotes :
  Permutation (map fst (dataToLines data quotes))
    (map fst (List.filter (fun entry => includes quotes (fst entry)) (rates data))).
Proof.
  unfold dataToLines. rewrite map_map. simpl.
  apply Permutation_map, sort_by_perm.
Qed.

(** Two sorted lists with the same elements are equal when the order
    separates the elements. *)
Lemma sorted_unique {A} (R : A -> A -> Prop) (l l' : list A) :
  (forall a b, In a l -> In b l -> R a b -> R b a -> a = b) ->
  StronglySorted R l -> StronglySorted R l' -> Permutation l l' -> l = l'.
Proof.
  intros Hanti Hs. revert l' Hanti.
  induction Hs as [|a l Hs IH Ha]; intros l' Hanti Hs' Hperm.
  - apply Permutation_nil in Hperm. now subst.
  - destruct l' as [|b l']; [apply Permutation_sym, Permutation_nil in Hperm; discriminate|].
    apply StronglySorted_inv in Hs'. destruct Hs' as [Hs' Hb].
    rewrite Forall_forall in Ha, Hb.
    assert (Hab : a = b).
    { assert (Hin_a : In a (b :: l')) by (eapply Permutation_in; [exact Hperm|now left]).
      assert (Hin_b : In b (a :: l))
        by (eapply Permutation_in; [apply Permutation_sym; exact Hperm|now left]).
      destruct Hin_a as [Heq|Hin_a]; [now subst|].
      destruct Hin_b as [Heq|Hin_b]; [now subst|].
      apply Hanti; [now left|now right| |].
      - apply Ha, list_elem_of_In, Hin_b.
      - apply Hb, list_elem_of_In, Hin_a. }
    subst b. f_equal. apply IH.
    + intros x y Hx Hy. apply Hanti; now right.
    + exact Hs'.
    + eapply Permutation_cons_inv. exact Hperm.
Qed.

Lemma same_key_same_entry (l : list (string * rate)) a b :
  NoDup (map fst l) -> In a l -> In b l -> fst a = fst b -> a = b.
Proof.
  induction l as [|x l IH]; simpl; intros Hnd Ha Hb Hk; [contradiction|].
  apply NoDup_cons in Hnd. destruct Hnd as [Hx Hnd].
  destruct Ha as [->|Ha], Hb as [->|Hb].
  - reflexivity.
  - exfalso. apply Hx. rewrite Hk. apply list_elem_of_In, in_map, Hb.
  - exfalso. apply Hx. rewrite <- Hk. apply list_elem_of_In, in_map, Ha.
  - now apply IH.
Qed.

End DataToLines.

Arguments rate : clear implicits.
Arguments payload : clear implicits.

(** *** Instances used to run the function on the payloads of the tests *)

(** A number written as a finite decimal, [mantissa / 10 ^ scale]: what a
    rate of the payload is when its JSON literal is short enough to be read
    back unchanged, and small enough for [Number::toString] to avoid the
    exponent notation. *)
Record decimal := { mantissa : Z; scale : nat }.

Fixpoint drop_zeros (m : Z) (s : nat) : Z * nat :=
  match s with
  | 0 => (m, 0)
  | S s' => if (m mod 10 =? 0)%Z then drop_zeros (m / 10) s' else (m, s)
  end.

Fixpoint zeros (n : nat) : string :=
  match n with
  | 0 => ""
  | S n' => "0" ++ zeros n'
  end.

Definition pad_left (width : nat) (digits : string) : string :=
  zeros (width - String.length digits) ++ digits.

Definition decimal_to_string (d : decimal) : string :=
  let '(m, s) := drop_zeros (mantissa d) (scale d) in
  let a := Z.abs m in
  let sign := if (m <? 0)%Z then "-" else "" in
  let whole := pretty (Z.to_N (a / 10 ^ Z.of_nat s)) in
  match s with
  | 0 => sign ++ whole
  | _ => sign ++ whole ++ "." ++ pad_left s (pretty (Z.to_N (a mod 10 ^ Z.of_nat s)))
  end.

#[export] Instance decimal_number : NumberModel decimal := {|
  num_zero := {| mantissa := 0; scale := 0 |};
  num_truthy d := negb (mantissa d =? 0)%Z;
  num_to_string := decimal_to_string;
  num_zero_falsy := eq_refl
|}.

(** Comparison by character code; on keys made of upper-case ASCII letters,
    such as the currency codes, every collation agrees with it. *)
Definition code_unit_compare (a b : string) : Z :=
  match String.compare a b with
  | Lt => -1
  | Eq => 0
  | Gt => 1
  end.

Lemma string_compare_trans a b c :
  String.compare a b <> Gt -> String.compare b c <> Gt -> String.compare a c <> Gt.
Proof.
  revert b c. induction a as [|x a IH]; intros [|y b] [|z c]; simpl; try congruence.
  unfold Ascii.compare.
  destruct (N.compare_spec (N_of_ascii x) (N_of_ascii y)) as [Hxy|Hxy|Hxy];
    destruct (N.compare_spec (N_of_ascii y) (N_of_ascii z)) as [Hyz|Hyz|Hyz];
    destruct (N.compare_spec (N_of_ascii x) (N_of_ascii z)) as [Hxz|Hxz|Hxz];
    try congruence; try lia.
  apply IH.
Qed.

Lemma code_unit_compare_le a b :
  (code_unit_compare a b <= 0)%Z <-> String.compare a b <> Gt.
Proof.
  unfold code_unit_compare. destruct (String.compare a b); split; (congruence || lia).
Qed.

#[export] Program Instance code_unit_collator : Collator := {|
  localeCompare := code_unit_compare
|}.
Next Obligation.
  intros a b. rewrite !code_unit_compare_le, (String.compare_antisym b a).
  destruct (String.compare a b); simpl; [left|left|right]; congruence.
Qed.
Next Obligation.
  intros a b c. rewrite !code_unit_compare_le. apply string_compare_trans.
Qed.

Definition dec (m : Z) (s : nat) : rate decimal := Number {| mantissa := m; scale := s |}.

(** The payloads of the tests of [dataToLines]. *)
Definition payload_rates : payload decimal :=
  {| date := "2024-01-01";
     rates := [("USD", dec 10 1); ("EUR", dec 85 2); ("GBP", dec 73 2)] |}.

Definition payload_empty_rates : payload decimal :=
  {| date := "2024-01-01"; rates := [("USD", Null); ("EUR", Undefined)] |}.

Definition payload_zero_rates : payload decimal :=
  {| date := "2024-01-01"; rates := [("USD", dec 0 0); ("EUR", dec 0 1)] |}.

(** *** The claims about [dataToLines] *)

(** C7. For every payload and quote list, [dataToLines] returns exactly the
    entries of [rates] whose key is in [quotes] (as a permutation, and
    entry by entry), sorted ascending by key in the order of
    [localeCompare], each formatted as the pair of the key and
    ["<date>,<rate>"], the rate of a non-zero number being its
    [Number::toString]; an empty or disjoint quote list yields the empty
    sequence; and the payload of the test gives the two lines of the test. *)
Theorem dataToLines_filters_sorts_formats :
  (forall (Num : Type) (NM : NumberModel Num) (C : Collator)
          (data : payload Num) (quotes : list string),
      Permutation (dataToLines data quotes)
        (map (to_line (date data))
           (List.filter (fun entry => includes quotes (fst entry)) (rates data)))
      /\ (forall q line,
            In (q, line) (dataToLines data quotes) <->
            exists r, In (q, r) (rates data) /\ In q quotes /\
                      line = date data ++ "," ++ rate_or_empty r)
      /\ (forall x, num_truthy x = true -> rate_or_empty (Number x) = num_to_string x)
      /\ StronglySorted
           (fun a b => (localeCompare (fst a) (fst b) <= 0)%Z)
           (dataToLines data quotes)
      /\ dataToLines data [] = []
      /\ ((forall q r, In (q, r) (rates data) -> ~ In q quotes) ->
          dataToLines data quotes = []))
  /\ dataToLines payload_rates ["EUR"; "USD"]
     = [("EUR", "2024-01-01,0.85"); ("USD", "2024-01-01,1")].
Proof.
  split; [|reflexivity].
  intros Num NM C data quotes. repeat split.
  - apply dataToLines_perm.
  - apply In_dataToLines.
  - apply In_dataToLines.
  - intros x Hx. simpl. now rewrite Hx.
  - apply dataToLines_sorted.
  - apply dataToLines_no_match. intros q r _ [].
  - apply dataToLines_no_match.
Qed.

(** The general part of C7 at the payload of the test, whose keys are
    disjoint from the quote list of the third test. *)
Lemma dataToLines_filters_sorts_formats_witness :
  dataToLines payload_rates ["JPY"; "CHF"] = [].
Proof.
  destruct dataToLines_filters_sorts_formats as [Hgen _].
  destruct (Hgen decimal _ _ payload_rates ["JPY"; "CHF"])
    as (_ & _ & _ & _ & _ & Hdisjoint).
  apply Hdisjoint.
  intros q r Hin Hq. simpl in Hin, Hq.
  destruct Hin as [Heq|[Heq|[Heq|[]]]]; injection Heq as <- <-;
    destruct Hq as [Hq|[Hq|[]]]; discriminate Hq.
Defined.

(** C8. An entry whose rate is falsy is rendered as ["<date>,"]: zero, [null]
    and [undefined] are falsy, every kept entry with a falsy rate gives that
    line, and a zero rate gives the line of a missing one. *)
Theorem falsy_rate_renders_empty
  (Num : Type) (NM : NumberModel Num) (C : Collator)
  (data : payload Num) (quotes : list string) (q : string) (r : rate Num) :
  In (q, r) (rates data) -> In q quotes -> truthy r = false ->
  In (q, date data ++ ",") (dataToLines data quotes)
  /\ to_line (date data) (q, r) = (q, date data ++ ",")
  /\ to_line (date data) (q, Number num_zero) = to_line (date data) (q, Undefined)
  /\ truthy (Number num_zero) = false
  /\ truthy (Null : rate Num) = false
  /\ truthy (Undefined : rate Num) = false.
Proof.
  intros Hin Hq Hr.
  assert (Hempty : rate_or_empty r = "").
  { destruct r as [| |x]; simpl in *; [reflexivity|reflexivity|now rewrite Hr]. }
  repeat split.
  - apply In_dataToLines. exists r. now rewrite Hempty.
  - unfold to_line. simpl. now rewrite Hempty.
  - unfold to_line. simpl. now rewrite num_zero_falsy.
  - simpl. apply num_zero_falsy.
Qed.

(** C8 at the payload whose rates are zero and at the one whose rates are
    [null] and [undefined]: the same two lines. *)
Lemma falsy_rate_renders_empty_witness :
  In ("USD", "2024-01-01,") (dataToLines payload_zero_rates ["EUR"; "USD"])
  /\ dataToLines payload_zero_rates ["EUR"; "USD"]
     = [("EUR", "2024-01-01,"); ("USD", "2024-01-01,")]
  /\ dataToLines payload_empty_rates ["EUR"; "USD"]
     = dataToLines payload_zero_rates ["EUR"; "USD"].
Proof.
  split; [|split; reflexivity].
  apply (falsy_rate_renders_empty decimal _ _ payload_zero_rates
           ["EUR"; "USD"] "USD" (dec 0 0)).
  - simpl. left. reflexivity.
  - simpl. right. left. reflexivity.
  - reflexivity.
Defined.

(** *** More properties of [dataToLines] *)

(** X5. Only the set of requested quotes matters: their order and their
    repetitions in [options.quotes] change nothing. *)
Theorem dataToLines_quotes_as_set
  (Num : Type) (NM : NumberModel Num) (C : Collator)
  (data : payload Num) (quotes quotes' : list string) :
  (forall q, In q quotes <-> In q quotes') ->
  dataToLines data quotes = dataToLines data quotes'.
Proof.
  intros Hsame. unfold dataToLines. do 2 f_equal.
  apply filter_ext. intros entry. now apply includes_ext.
Qed.

Lemma dataToLines_quotes_as_set_witness :
  dataToLines payload_rates ["USD"; "EUR"; "USD"]
  = dataToLines payload_rates ["EUR"; "USD"].
Proof.
  apply (dataToLines_quotes_as_set decimal _ _ payload_rates).
  intros q. simpl. tauto.
Defined.

(** X6. There are never more lines than entries in the payload; and since
    the keys of an object are distinct, the lines have distinct keys, all
    requested, so there is at most one line per requested quote. *)
Theorem dataToLines_keys_distinct
  (Num : Type) (NM : NumberModel Num) (C : Collator)
  (data : payload Num) (quotes : list string) :
  NoDup (map fst (rates data)) ->
  NoDup (map fst (dataToLines data quotes))
  /\ (forall q, In q (map fst (dataToLines data quotes)) -> In q quotes)
  /\ length (dataToLines data quotes) <= length quotes
  /\ length (dataToLines data quotes) <= length (rates data).
Proof.
  intros Hnd.
  assert (Hkeys : NoDup (map fst (dataToLines data quotes))).
  { rewrite keys_dataToLines. now apply keys_filter. }
  assert (Hin : forall q, In q (map fst (dataToLines data quotes)) -> In q quotes).
  { intros q Hq. apply in_map_iff in Hq. destruct Hq as ((q' & line) & <- & Hq).
    apply In_dataToLines in Hq. destruct Hq as (r & _ & Hq & _). exact Hq. }
  split; [exact Hkeys|]. split; [exact Hin|]. split.
  - rewrite <- (length_map fst).
    apply NoDup_incl_length; [now apply NoDup_ListNoDup|exact Hin].
  - rewrite (Permutation_length (dataToLines_perm data quotes)), length_map.
    apply filter_length_le.
Qed.

Lemma dataToLines_keys_distinct_witness :
  NoDup (map fst (dataToLines payload_rates ["EUR"; "USD"; "EUR"; "JPY"]))
  /\ length (dataToLines payload_rates ["EUR"; "USD"; "EUR"; "JPY"]) <= 3.
Proof.
  destruct (dataToLines_keys_distinct decimal _ _ payload_rates
              ["EUR"; "USD"; "EUR"; "JPY"]) as (Hnd & _ & _ & Hlen).
  - simpl. repeat constructor; rewrite ?list_elem_of_In; simpl; intuition discriminate.
  - split; [exact Hnd|exact Hlen].
Defined.

Lemma code_unit_compare_antisym a b :
  (code_unit_compare a b <= 0)%Z -> (code_unit_compare b a <= 0)%Z -> a = b.
Proof.
  rewrite !code_unit_compare_le, (String.compare_antisym b a).
  destruct (String.compare a b) eqn:Hab; simpl; try congruence.
  intros _ _. now apply String.compare_eq_iff.
Qed.

Lemma filter_perm {A} (P : A -> bool) (l l' : list A) :
  Permutation l l' -> Permutation (List.filter P l) (List.filter P l').
Proof.
  induction 1 as [|x l l' _ IH|x y l|l l' l'' _ IH1 _ IH2]; simpl.
  - constructor.
  - destruct (P x); [now constructor|exact IH].
  - destruct (P x), (P y); try reflexivity. apply perm_swap.
  - now transitivity (List.filter P l').
Qed.

(** X7. When the collation separates the distinct keys of the payload,
    the order of the properties in the payload does not matter: two
    payloads with the same date and the same entries give the same lines in
    the same order. *)
Theorem dataToLines_payload_order
  (Num : Type) (NM : NumberModel Num) (C : Collator)
  (data data' : payload Num) (quotes : list string) :
  (forall a b,
      In a (map fst (rates data)) -> In b (map fst (rates data)) ->
      (localeCompare a b <= 0)%Z -> (localeCompare b a <= 0)%Z -> a = b) ->
  NoDup (map fst (rates data)) ->
  date data = date data' ->
  Permutation (rates data) (rates data') ->
  dataToLines data quotes = dataToLines data' quotes.
Proof.
  intros Hanti Hnd Hdate Hperm. unfold dataToLines. rewrite Hdate. f_equal.
  set (keep := fun entry : string * rate Num => includes quotes (fst entry)).
  apply (sorted_unique quote_le); try apply sort_by_sorted.
  - intros a b Ha Hb Hab Hba.
    assert (Hin : forall x, In x (sort_by by_quote (List.filter keep (rates data))) ->
                            In x (rates data)).
    { intros x Hx. apply (Permutation_in _ (sort_by_perm _ _)) in Hx.
      now apply filter_In in Hx. }
    apply (same_key_same_entry (rates data)); auto.
    apply Hanti; auto using in_map.
  - rewrite !sort_by_perm. now apply filter_perm.
Qed.

Lemma dataToLines_payload_order_witness :
  dataToLines
    {| date := "2024-01-01";
       rates := [("GBP", dec 73 2); ("USD", dec 10 1); ("EUR", dec 85 2)] |}
    ["EUR"; "USD"]
  = dataToLines payload_rates ["EUR"; "USD"].
Proof.
  apply (dataToLines_payload_order decimal _ code_unit_collator).
  - intros a b _ _. apply code_unit_compare_antisym.
  - simpl. repeat constructor; rewrite ?list_elem_of_In; simpl; intuition discriminate.
  - reflexivity.
  - simpl.
    etransitivity; [apply perm_swap|]. apply perm_skip, perm_swap.
Defined.

End Lines.

(** ** HttpClient *)

Module Http.

Section Client.
Context {Data : Type}.

(** What [get] can throw: the rejection of [fetch] (a network failure, or the
    abort raised when the signal of [AbortSignal.timeout] fires) or of
    [response.json()]; the error built for a response that is not ok,
    [HTTP ${status}: ${statusText} on "${url}"]; and the [RangeError] that
    [AbortSignal.timeout] throws for a delay it does not accept. *)
Inductive error :=
| Raised (reason : string)
| HttpStatus (status : nat) (statusText url : string)
| DelayOutOfRange (delay : Z).

Record response := {
  ok : bool;
  status : nat;
  statusText : string;
  json : error + Data
}.

(** The network: how the [k]-th call of [fetch] (counting from 0) ends, given
    the url and the delay of the abort signal. *)
Definition network := nat -> string -> Z -> error + response.

(** [console.warn] of [Attempt ${attempt}/${total} failed for "${target}",
    retrying...]. *)
Record warning := { attempt : Z; total : Z; target : string }.

(** The observable effects of a call: the requests issued and the warnings
    printed, oldest first. *)
Record world := { requests : list (string * Z); warnings : list warning }.

Definition no_effects : world := {| requests := []; warnings := [] |}.

Inductive completion :=
| Return (data : Data)
| ReturnUndefined
| Throw (e : error).

(** The two private fields. *)
Record client := { retries : Z; timeout : Z }.

Record options := { opt_retries : option Z; opt_timeout : option Z }.

(** [x || d] for a number that may be missing. *)
Definition or_default (x : option Z) (d : Z) : Z :=
  match x with
  | Some v => if (v =? 0)%Z then d else v
  | None => d
  end.

Definition constructor (o : options) : client :=
  {| retries := or_default (opt_retries o) 0;
     timeout := or_default (opt_timeout o) 10000 |}.

(** The body of [try], after [fetch] has settled: a response that is not ok
    throws, otherwise the decoded body is returned. *)
Definition attempt_result (url : string) (settled : error + response)
  : error + Data :=
  match settled with
  | inl e => inl e
  | inr resp =>
      if negb (ok resp) then inl (HttpStatus (status resp) (statusText resp) url)
      else json resp
  end.

(** [AbortSignal.timeout(delay)] of Node.js accepts the integers from 0 to
    [2 ^ 32 - 1] and throws for any other. The delays are integers here, as
    the retries are. *)
Definition timeout_accepted (delay : Z) : bool :=
  (0 <=? delay)%Z && (delay <=? 4294967295)%Z.

(** [await fetch(url, {signal: AbortSignal.timeout(timeout)})]: the signal
    is built first, inside the [try]; when the delay is not accepted this
    throws and [fetch] is not called. *)
Definition do_fetch (net : network) (url : string) (delay : Z) (w : world)
  : (error + response) * world :=
  if timeout_accepted delay then
    (net (length (requests w)) url delay,
     {| requests := requests w ++ [(url, delay)]; warnings := warnings w |})
  else (inl (DelayOutOfRange delay), w).

Definition warn (msg : warning) (w : world) : world :=
  {| requests := requests w; warnings := warnings w ++ [msg] |}.

(** The [for] loop shared by [HttpClient.get] and [httpGet]; [remaining] is
    the number of iterations the condition [i < retries + 1] still allows, and
    [shown] the total printed by the warning. *)
Fixpoint attempts (net : network) (url : string) (r delay shown : Z)
  (remaining : nat) (i : Z) (w : world) : completion * world :=
  match remaining with
  | 0 => (ReturnUndefined, w)
  | S k =>
      let (settled, w1) := do_fetch net url delay w in
      match attempt_result url settled with
      | inr data => (Return data, w1)
      | inl e =>
          if (i <? r)%Z
          then attempts net url r delay shown k (i + 1)
                 (warn {| attempt := i + 1; total := shown; target := url |} w1)
          else (Throw e, w1)
      end
  end.

(** [HttpClient.get] of [utils.js]. *)
Definition get (c : client) (net : network) (url : string) : completion * world :=
  attempts net url (retries c) (timeout c) (retries c + 1)
    (Z.to_nat (retries c + 1)) 0 no_effects.

(** [httpGet] of [index.js]: the same loop; the warning prints
    [options.retries] as the total. *)
Definition httpGet (net : network) (url : string) (o : option options)
  : completion * world :=
  let r := or_default (o ≫= opt_retries) 0 in
  let delay := or_default (o ≫= opt_timeout) 10000 in
  attempts net url r delay r (Z.to_nat (r + 1)) 0 no_effects.

(** The [k]-th request fails. *)
Definition fails (net : network) (url : string) (delay : Z) (k : nat) : Prop :=
  exists e, attempt_result url (net k url delay) = inl e.

Lemma attempts_S net url r delay shown k i w :
  attempts net url r delay shown (S k) i w =
  let (settled, w1) := do_fetch net url delay w in
  match attempt_result url settled with
  | inr data => (Return data, w1)
  | inl e =>
      if (i <? r)%Z
      then attempts net url r delay shown k (i + 1)
             (warn {| attempt := i + 1; total := shown; target := url |} w1)
      else (Throw e, w1)
  end.
Proof. reflexivity. Qed.

(** The loop, when every attempt before the last allowed one fails: every
    allowed attempt is made, each but the last warns, and the completion is
    that of the last attempt. *)
Lemma attempts_to_the_last net url r delay shown remaining i w :
  timeout_accepted delay = true ->
  (Z.of_nat (S remaining) + i = r + 1)%Z ->
  (forall j, j < remaining -> fails net url delay (length (requests w) + j)) ->
  let last := attempt_result url (net (length (requests w) + remaining) url delay) in
  let '(c, w') := attempts net url r delay shown (S remaining) i w in
  c = match last with inl e => Throw e | inr data => Return data end
  /\ length (requests w') = length (requests w) + S remaining
  /\ length (warnings w') = length (warnings w) + remaining.
Proof.
  intros Hacc. revert i w. induction remaining as [|k IH]; intros i w Hi Hfail.
  - rewrite attempts_S. unfold do_fetch. rewrite Hacc. simpl. rewrite Nat.add_0_r.
    destruct (attempt_result url (net (length (requests w)) url delay)) as [e|d].
    + destruct (i <? r)%Z eqn:Hlt; [apply Z.ltb_lt in Hlt; lia|]. simpl.
      rewrite length_app. simpl. repeat split; lia.
    + simpl. rewrite length_app. simpl. repeat split; lia.
  - specialize (IH (i + 1)%Z).
    rewrite attempts_S. unfold do_fetch. rewrite Hacc.
    destruct (Hfail 0) as [e He]; [lia|]. rewrite Nat.add_0_r in He. rewrite He.
    destruct (i <? r)%Z eqn:Hlt; [|apply Z.ltb_ge in Hlt; lia].
    set (w1 := warn _ _).
    specialize (IH w1).
    assert (Hlen : length (requests w1) = S (length (requests w))).
    { subst w1. simpl. rewrite length_app. simpl. lia. }
    assert (Hwarn : length (warnings w1) = S (length (warnings w))).
    { subst w1. simpl. rewrite length_app. simpl. lia. }
    rewrite Hlen, Hwarn in IH.
    replace (S (length (requests w)) + k) with (length (requests w) + S k) in IH by lia.
    destruct (attempts net url r delay shown (S k) (i + 1) w1) as [c w'].
    destruct IH as (Hc & Hreq & Hw); [lia| |].
    + intros j Hj. replace (S (length (requests w)) + j)
        with (length (requests w) + S j) by lia. apply Hfail. lia.
    + split; [exact Hc|split; lia].
Qed.

Lemma or_default_0 v : or_default (Some v) 0 = v.
Proof. unfold or_default. destruct (Z.eqb_spec v 0); congruence. Qed.

(** The total printed by the warning changes nothing else: [httpGet] and
    [HttpClient.get] complete alike and issue the same requests. *)
Lemma attempts_shown net url r delay shown shown' remaining i w w' :
  requests w = requests w' ->
  fst (attempts net url r delay shown remaining i w)
  = fst (attempts net url r delay shown' remaining i w')
  /\ requests (snd (attempts net url r delay shown remaining i w))
     = requests (snd (attempts net url r delay shown' remaining i w')).
Proof.
  revert i w w'. induction remaining as [|k IH]; intros i w w' Hreq; [easy|].
  rewrite !attempts_S. unfold do_fetch. rewrite <- Hreq.
  destruct (timeout_accepted delay).
  - destruct (attempt_result url (net (length (requests w)) url delay)) as [e|d];
      [|easy].
    destruct (i <? r)%Z; [|easy]. apply IH. reflexivity.
  - cbn [attempt_result]. destruct (i <? r)%Z; [|easy]. apply IH. exact Hreq.
Qed.

(** A warning with another total. *)
Definition retotal (shown : Z) (m : warning) : warning :=
  {| attempt := attempt m; total := shown; target := target m |}.

Lemma attempts_retotal net url r delay shown shown' remaining i w w' :
  requests w = requests w' ->
  warnings w = map (retotal shown) (warnings w') ->
  warnings (snd (attempts net url r delay shown remaining i w))
  = map (retotal shown) (warnings (snd (attempts net url r delay shown' remaining i w'))).
Proof.
  revert i w w'. induction remaining as [|k IH]; intros i w w' Hreq Hwarn;
    [exact Hwarn|].
  rewrite !attempts_S. unfold do_fetch. rewrite <- Hreq.
  destruct (timeout_accepted delay).
  - destruct (attempt_result url (net (length (requests w)) url delay)) as [e|d];
      [|exact Hwarn].
    destruct (i <? r)%Z; [|exact Hwarn]. apply IH; [reflexivity|].
    cbn [warn warnings]. rewrite map_app, Hwarn. reflexivity.
  - cbn [attempt_result]. destruct (i <? r)%Z; [|exact Hwarn].
    apply IH; [exact Hreq|]. cbn [warn warnings]. rewrite map_app, Hwarn.
    reflexivity.
Qed.

Lemma httpGet_as_get net url (o : options) :
  fst (httpGet net url (Some o)) = fst (get (constructor o) net url)
  /\ requests (snd (httpGet net url (Some o)))
     = requests (snd (get (constructor o) net url)).
Proof. unfold httpGet, get. simpl. now apply attempts_shown. Qed.

(** *** The loop on an arbitrary network *)

Definition completion_of (x : error + Data) : completion :=
  match x with
  | inl e => Throw e
  | inr data => Return data
  end.

(** The warnings of [k] failed attempts after attempt [i]. *)
Definition warnings_from (shown : Z) (url : string) (i : Z) (k : nat)
  : list warning :=
  map (fun j => {| attempt := i + Z.of_nat j + 1; total := shown; target := url |})
    (seq 0 k).

Lemma warnings_from_S shown url i k :
  warnings_from shown url i (S k)
  = {| attempt := i + 1; total := shown; target := url |}
      :: warnings_from shown url (i + 1) k.
Proof.
  unfold warnings_from. simpl. rewrite Z.add_0_r. f_equal.
  rewrite <- seq_shift, map_map. apply map_ext. intros j. f_equal. lia.
Qed.

Lemma one_request net url delay shown remaining i w (c : completion) w' :
  requests w' = (requests w ++ [(url, delay)])%list ->
  warnings w' = warnings w ->
  c = completion_of (attempt_result url (net (length (requests w)) url delay)) ->
  ((exists e, c = Throw e) -> 1 = S remaining) ->
  exists m,
    1 <= m <= S remaining
    /\ requests w' = (requests w ++ replicate m (url, delay))%list
    /\ warnings w' = (warnings w ++ warnings_from shown url i (m - 1))%list
    /\ c = completion_of
             (attempt_result url (net (length (requests w) + (m - 1)) url delay))
    /\ (forall j, j < m - 1 -> fails net url delay (length (requests w) + j))
    /\ ((exists e, c = Throw e) -> m = S remaining).
Proof.
  intros Hreq Hwarn Hc Hthrow. exists 1.
  split; [lia|]. split; [exact Hreq|]. split.
  { rewrite Hwarn. unfold warnings_from. simpl. now rewrite app_nil_r. }
  split; [now rewrite Nat.add_0_r|]. split; [intros j Hj; lia|exact Hthrow].
Qed.

(** Whatever the network does, a loop with iterations left makes [m]
    requests, [1 <= m <= remaining], all to the same url with the same delay;
    the first [m - 1] fail and are each followed by a warning; it completes
    as request [m - 1] does, and throws only at the last allowed attempt. *)
Lemma attempts_trace net url r delay shown remaining i w :
  timeout_accepted delay = true ->
  (Z.of_nat (S remaining) + i = r + 1)%Z ->
  exists m,
    1 <= m <= S remaining
    /\ requests (snd (attempts net url r delay shown (S remaining) i w))
       = (requests w ++ replicate m (url, delay))%list
    /\ warnings (snd (attempts net url r delay shown (S remaining) i w))
       = (warnings w ++ warnings_from shown url i (m - 1))%list
    /\ fst (attempts net url r delay shown (S remaining) i w)
       = completion_of
           (attempt_result url (net (length (requests w) + (m - 1)) url delay))
    /\ (forall j, j < m - 1 -> fails net url delay (length (requests w) + j))
    /\ ((exists e, fst (attempts net url r delay shown (S remaining) i w) = Throw e)
        -> m = S remaining).
Proof.
  intros Hacc. revert i w. induction remaining as [|k IH]; intros i w Hi;
    rewrite attempts_S; unfold do_fetch; rewrite Hacc;
    destruct (attempt_result url (net (length (requests w)) url delay))
      as [e|d] eqn:Hres.
  - destruct (i <? r)%Z eqn:Hlt; [apply Z.ltb_lt in Hlt; lia|].
    apply one_request; cbn [fst snd requests warnings]; auto.
    now rewrite Hres.
  - apply one_request; cbn [fst snd requests warnings]; auto.
    now rewrite Hres.
  - destruct (i <? r)%Z eqn:Hlt; [|apply Z.ltb_ge in Hlt; lia].
    set (w1 := warn _ _).
    destruct (IH (i + 1)%Z w1) as (m & Hm & Hreq & Hwarn & Hfst & Hfail & Hthrow);
      [lia|].
    assert (Hlen : length (requests w1) = S (length (requests w))).
    { subst w1. simpl. rewrite length_app. simpl. lia. }
    exists (S m). split; [lia|]. split; [|split; [|split; [|split]]].
    + rewrite Hreq. subst w1. simpl. now rewrite <- app_assoc.
    + rewrite Hwarn. subst w1. cbn [warn warnings].
      replace (S m - 1) with (S (m - 1)) by lia.
      rewrite warnings_from_S, <- app_assoc. reflexivity.
    + rewrite Hfst, Hlen. do 3 f_equal. lia.
    + intros j Hj. destruct j as [|j].
      * rewrite Nat.add_0_r. exists e. exact Hres.
      * replace (length (requests w) + S j) with (length (requests w1) + j) by lia.
        apply Hfail. lia.
    + intros He. apply Hthrow in He. lia.
  - apply one_request; cbn [fst snd requests warnings]; auto.
    + now rewrite Hres.
    + intros [e He]. discriminate He.
Qed.

(** With a delay that [AbortSignal.timeout] does not accept, every allowed
    iteration throws before [fetch] is called: no request is issued, each
    iteration but the last warns, and the last one rethrows the error. *)
Lemma attempts_rejected_delay net url r delay shown remaining i w :
  timeout_accepted delay = false ->
  (Z.of_nat (S remaining) + i = r + 1)%Z ->
  attempts net url r delay shown (S remaining) i w
  = (Throw (DelayOutOfRange delay),
     {| requests := requests w;
        warnings := warnings w ++ warnings_from shown url i remaining |}).
Proof.
  intros Hacc. revert i w. induction remaining as [|k IH]; intros i w Hi;
    rewrite attempts_S; unfold do_fetch; rewrite Hacc; cbn [attempt_result].
  - destruct (i <? r)%Z eqn:Hlt; [apply Z.ltb_lt in Hlt; lia|].
    unfold warnings_from. simpl. rewrite app_nil_r. now destruct w.
  - destruct (i <? r)%Z eqn:Hlt; [|apply Z.ltb_ge in Hlt; lia].
    rewrite IH by lia. cbn [warn requests warnings].
    rewrite warnings_from_S, <- app_assoc. reflexivity.
Qed.


End Client.

Arguments error : clear implicits.
Arguments response : clear implicits.
Arguments network : clear implicits.
Arguments completion : clear implicits.

(** The network of the retry test, with a response that is not ok in place of
    the second failure: two failures, then the body. *)
Definition flaky_network : network string :=
  fun k _ _ =>
    match k with
    | 0 => inl (Raised "Network error")
    | 1 => inr {| ok := false; status := 503; statusText := "Service Unavailable";
                  json := inl (Raised "no body") |}
    | _ => inr {| ok := true; status := 200; statusText := "OK";
                  json := inr "data" |}
    end.

(** A network on which every request succeeds. *)
Definition steady_network : network string :=
  fun _ _ _ => inr {| ok := true; status := 200; statusText := "OK";
                      json := inr "data" |}.

(** *** The claim about [HttpClient.get] *)

(** C5. A client built with [retries = r] and a timeout that
    [AbortSignal.timeout] accepts, on a network whose first [r] requests
    fail: [get] issues exactly [r + 1] requests and prints exactly [r]
    warnings; when request [r] succeeds it returns the decoded body of that
    response, and when it fails it throws the failure of that last attempt
    unchanged. A response that is not ok is a failure like a rejected
    [fetch]: it is turned into the status error and is subject to the same
    test on [i]. *)
Theorem get_retries_then_settles
  (Data : Type) (r : nat) (t : option Z) (net : network Data) (url : string) :
  let c := constructor {| opt_retries := Some (Z.of_nat r); opt_timeout := t |} in
  timeout_accepted (timeout c) = true ->
  (forall k, k < r -> fails net url (timeout c) k) ->
  length (requests (snd (get c net url))) = r + 1
  /\ length (warnings (snd (get c net url))) = r
  /\ (forall resp d,
        net r url (timeout c) = inr resp -> ok resp = true -> json resp = inr d ->
        fst (get c net url) = Return d)
  /\ (forall e,
        attempt_result url (net r url (timeout c)) = inl e ->
        fst (get c net url) = Throw e)
  /\ (forall resp : response Data,
        ok resp = false ->
        attempt_result url (inr resp)
        = inl (HttpStatus (status resp) (statusText resp) url)).
Proof.
  intros c Hacc Hfail.
  assert (Hr : retries c = Z.of_nat r) by apply or_default_0.
  pose proof (attempts_to_the_last net url (retries c) (timeout c)
                (retries c + 1) r 0 no_effects Hacc) as Hloop.
  unfold get. replace (Z.to_nat (retries c + 1)) with (S r) by lia.
  specialize (Hloop ltac:(lia) Hfail). cbv zeta in Hloop.
  destruct (attempts net url (retries c) (timeout c) (retries c + 1)%Z (S r) 0%Z
              no_effects) as [done w'].
  destruct Hloop as (Hdone & Hreq & Hwarn).
  change (length (requests no_effects)) with 0 in *.
  change (length (warnings no_effects)) with 0 in *.
  cbn [Nat.add] in Hdone. cbn [fst snd]. split; [lia|]. split; [lia|]. split; [|split].
  - intros resp d Hnet Hok Hjson. rewrite Hdone, Hnet. simpl.
    now rewrite Hok, Hjson.
  - intros e He. now rewrite Hdone, He.
  - intros resp Hok. simpl. now rewrite Hok.
Qed.

(** C5 with [retries = 2] on the network that fails twice. *)
Lemma get_retries_then_settles_witness :
  let c := constructor {| opt_retries := Some 2%Z; opt_timeout := None |} in
  length (requests (snd (get c flaky_network "http://example.org"))) = 3
  /\ length (warnings (snd (get c flaky_network "http://example.org"))) = 2
  /\ fst (get c flaky_network "http://example.org") = Return "data".
Proof.
  destruct (get_retries_then_settles string 2 None flaky_network
              "http://example.org") as (Hreq & Hwarn & Hok & _).
  - reflexivity.
  - intros [|[|k]] Hk; [eexists; reflexivity|eexists; reflexivity|lia].
  - split; [exact Hreq|]. split; [exact Hwarn|].
    eapply Hok; reflexivity.
Defined.

(** C5 as stated, for every client, fails on a timeout that
    [AbortSignal.timeout] refuses: with [retries = 0] and a timeout of
    [2 ^ 32] on a network where every request succeeds, the signal cannot be
    built, so [get] issues no request and throws instead of returning the
    body. *)
Lemma get_retries_counterexample :
  ~ (forall (Data : Type) (r : nat) (t : option Z) (net : network Data)
            (url : string),
        let c := constructor {| opt_retries := Some (Z.of_nat r); opt_timeout := t |} in
        (forall k, k < r -> fails net url (timeout c) k) ->
        length (requests (snd (get c net url))) = r + 1
        /\ length (warnings (snd (get c net url))) = r
        /\ (forall resp d,
              net r url (timeout c) = inr resp -> ok resp = true ->
              json resp = inr d ->
              fst (get c net url) = Return d)
        /\ (forall e,
              attempt_result url (net r url (timeout c)) = inl e ->
              fst (get c net url) = Throw e)
        /\ (forall resp : response Data,
              ok resp = false ->
              attempt_result url (inr resp)
              = inl (HttpStatus (status resp) (statusText resp) url))).
Proof.
  intros Hclaim.
  destruct (Hclaim string 0 (Some 4294967296%Z) steady_network "http://example.org")
    as (Hreq & _ & Hok & _).
  - intros k Hk. lia.
  - specialize (Hok _ "data" eq_refl eq_refl eq_refl).
    vm_compute in Hok. discriminate Hok.
Qed.

(** *** More on the retry loop *)

(** X1. With a timeout that [AbortSignal.timeout] accepts, [get] stops at
    the first request that succeeds: when requests [0 .. k - 1] fail and
    request [k <= r] succeeds, it returns that body after exactly [k + 1]
    requests, all to the same url with the client's timeout, and [k]
    warnings numbered [1 .. k] out of [r + 1]. *)
Theorem get_stops_at_first_success
  (Data : Type) (r k : nat) (t : option Z) (net : network Data) (url : string)
  (d : Data) :
  let c := constructor {| opt_retries := Some (Z.of_nat r); opt_timeout := t |} in
  timeout_accepted (timeout c) = true ->
  k <= r ->
  (forall j, j < k -> fails net url (timeout c) j) ->
  attempt_result url (net k url (timeout c)) = inr d ->
  fst (get c net url) = Return d
  /\ requests (snd (get c net url)) = replicate (S k) (url, timeout c)
  /\ warnings (snd (get c net url)) = warnings_from (Z.of_nat r + 1) url 0 k.
Proof.
  intros c Hacc Hk Hfail Hok.
  assert (Hr : retries c = Z.of_nat r) by apply or_default_0.
  unfold get. rewrite Hr. replace (Z.to_nat (Z.of_nat r + 1)) with (S r) by lia.
  destruct (attempts_trace net url (Z.of_nat r) (timeout c) (Z.of_nat r + 1) r 0
              no_effects Hacc) as (m & Hm & Hreq & Hwarn & Hfst & Hfails & Hthrow);
    [lia|].
  change (length (requests no_effects)) with 0 in *. cbn [Nat.add] in *.
  assert (Hmk : m - 1 = k).
  { destruct (Nat.lt_trichotomy (m - 1) k) as [Hlt|[Heq|Hgt]]; [|exact Heq|].
    - destruct (Hfail _ Hlt) as [e He]. rewrite He in Hfst.
      assert (m = S r) by (apply Hthrow; eauto). lia.
    - destruct (Hfails _ Hgt) as [e He]. congruence. }
  rewrite Hfst, Hreq, Hwarn, Hmk, Hok. replace m with (S k) by lia.
  split; [reflexivity|]. split; reflexivity.
Qed.

(** X1 on the network that fails twice, with three retries allowed. *)
Lemma get_stops_at_first_success_witness :
  let c := constructor {| opt_retries := Some 3%Z; opt_timeout := Some 2000%Z |} in
  fst (get c flaky_network "http://example.org") = Return "data"
  /\ length (requests (snd (get c flaky_network "http://example.org"))) = 3.
Proof.
  destruct (get_stops_at_first_success string 3 2 (Some 2000%Z) flaky_network
              "http://example.org" "data") as (Hfst & Hreq & _).
  - reflexivity.
  - lia.
  - intros [|[|j]] Hj; [eexists; reflexivity|eexists; reflexivity|lia].
  - reflexivity.
  - split; [exact Hfst|]. apply (f_equal length) in Hreq. exact Hreq.
Defined.

(** X2. Whatever the network does, a client with [r >= 0] retries and a
    timeout that [AbortSignal.timeout] accepts makes between 1 and [r + 1]
    requests, each to the given url with the client's timeout; it warns once
    per request but the last, numbering the attempts out of [r + 1]; and it
    completes as its last request does. With a timeout that is not accepted
    it makes no request at all, warns [r] times and throws the error of
    [AbortSignal.timeout]. In both cases it never returns [undefined]. The
    timeout is 10000, which is accepted, when the option is missing or 0. *)
Theorem get_requests_bounded
  (Data : Type) (r : nat) (t : option Z) (net : network Data) (url : string) :
  let c := constructor {| opt_retries := Some (Z.of_nat r); opt_timeout := t |} in
  (timeout_accepted (timeout c) = true ->
   exists m,
     1 <= m <= r + 1
     /\ requests (snd (get c net url)) = replicate m (url, timeout c)
     /\ warnings (snd (get c net url)) = warnings_from (Z.of_nat r + 1) url 0 (m - 1)
     /\ fst (get c net url)
        = completion_of (attempt_result url (net (m - 1) url (timeout c))))
  /\ (timeout_accepted (timeout c) = false ->
      get c net url
      = (Throw (DelayOutOfRange (timeout c)),
         {| requests := [];
            warnings := warnings_from (Z.of_nat r + 1) url 0 r |}))
  /\ fst (get c net url) <> ReturnUndefined
  /\ (t = None \/ t = Some 0%Z ->
      timeout c = 10000%Z /\ timeout_accepted (timeout c) = true).
Proof.
  intros c.
  assert (Hr : retries c = Z.of_nat r) by apply or_default_0.
  unfold get. rewrite Hr. replace (Z.to_nat (Z.of_nat r + 1)) with (S r) by lia.
  assert (Hrejected : timeout_accepted (timeout c) = false ->
            attempts net url (Z.of_nat r) (timeout c) (Z.of_nat r + 1) (S r) 0
              no_effects
            = (Throw (DelayOutOfRange (timeout c)),
               {| requests := [];
                  warnings := warnings_from (Z.of_nat r + 1) url 0 r |})).
  { intros Hacc. rewrite attempts_rejected_delay by (trivial; lia). reflexivity. }
  split; [|split; [exact Hrejected|split]].
  - intros Hacc.
    destruct (attempts_trace net url (Z.of_nat r) (timeout c) (Z.of_nat r + 1) r 0
                no_effects Hacc) as (m & Hm & Hreq & Hwarn & Hfst & _ & _); [lia|].
    change (length (requests no_effects)) with 0 in *. cbn [Nat.add] in *.
    exists m. split; [lia|]. split; [exact Hreq|]. split; [exact Hwarn|exact Hfst].
  - destruct (timeout_accepted (timeout c)) eqn:Hacc.
    + destruct (attempts_trace net url (Z.of_nat r) (timeout c) (Z.of_nat r + 1) r 0
                  no_effects Hacc) as (m & _ & _ & _ & Hfst & _ & _); [lia|].
      rewrite Hfst. now destruct (attempt_result _ _).
    + now rewrite Hrejected.
  - intros [-> | ->]; split; reflexivity.
Qed.

(** X3. A negative number of retries is kept by the constructor and makes
    the loop run no iteration: [get] issues no request, prints nothing and
    returns [undefined]. *)
Theorem get_negative_retries
  (Data : Type) (r : Z) (t : option Z) (net : network Data) (url : string) :
  (r < 0)%Z ->
  get (constructor {| opt_retries := Some r; opt_timeout := t |}) net url
  = (ReturnUndefined, no_effects).
Proof.
  intros Hr. unfold get.
  assert (Hc : retries (constructor {| opt_retries := Some r; opt_timeout := t |}) = r)
    by apply or_default_0.
  rewrite Hc. replace (Z.to_nat (r + 1)) with 0 by lia. reflexivity.
Qed.

Lemma get_negative_retries_witness :
  get (constructor {| opt_retries := Some (-1)%Z; opt_timeout := None |})
    flaky_network "http://example.org"
  = (ReturnUndefined, no_effects).
Proof. apply (get_negative_retries string (-1)%Z). lia. Defined.

(** X4. [httpGet] of [index.js] completes as [HttpClient.get] does and issues
    the same requests; its warnings print [options.retries] as the total, one
    less than the number of attempts. Without options it makes a single
    request with the default timeout and never warns. *)
Theorem httpGet_warns_with_retries
  (Data : Type) (r : nat) (t : option Z) (net : network Data) (url : string) :
  let o := {| opt_retries := Some (Z.of_nat r); opt_timeout := t |} in
  fst (httpGet net url (Some o)) = fst (get (constructor o) net url)
  /\ requests (snd (httpGet net url (Some o)))
     = requests (snd (get (constructor o) net url))
  /\ warnings (snd (httpGet net url (Some o)))
     = map (fun m => {| attempt := attempt m; total := Z.of_nat r; target := target m |})
         (warnings (snd (get (constructor o) net url)))
  /\ requests (snd (httpGet net url None)) = [(url, 10000%Z)]
  /\ warnings (snd (httpGet net url None)) = [].
Proof.
  intros o. destruct (httpGet_as_get net url o) as [Hfst Hreq].
  split; [exact Hfst|]. split; [exact Hreq|]. split; [|split].
  - clear Hfst Hreq. unfold httpGet, get. cbn [mbind option_bind].
    fold (constructor o).
    assert (Hr : retries (constructor o) = Z.of_nat r) by apply or_default_0.
    change (or_default (opt_retries o) 0) with (retries (constructor o)).
    change (or_default (opt_timeout o) 10000) with (timeout (constructor o)).
    rewrite Hr.
    apply (attempts_retotal net url (Z.of_nat r) (timeout (constructor o))
             (Z.of_nat r) (Z.of_nat r + 1) _ 0 no_effects no_effects);
      reflexivity.
  - unfold httpGet. simpl. now destruct (attempt_result _ _).
  - unfold httpGet. simpl. now destruct (attempt_result _ _).
Qed.

(** X2 on the network that fails twice, with one retry: two requests with
    the default timeout; and with a negative timeout: no request, one
    warning, the error of [AbortSignal.timeout]. *)
Lemma get_requests_bounded_witness :
  let c := constructor {| opt_retries := Some 1%Z; opt_timeout := Some 0%Z |} in
  let c' := constructor {| opt_retries := Some 1%Z; opt_timeout := Some (-5)%Z |} in
  (exists m,
      1 <= m <= 2
      /\ requests (snd (get c flaky_network "http://example.org"))
         = replicate m ("http://example.org", 10000%Z))
  /\ get c' flaky_network "http://example.org"
     = (Throw (DelayOutOfRange (-5)),
        {| requests := [];
           warnings := [{| attempt := 1; total := 2;
                           target := "http://example.org" |}] |}).
Proof.
  split.
  - destruct (get_requests_bounded string 1 (Some 0%Z) flaky_network
                "http://example.org") as (Hacc & _).
    destruct (Hacc eq_refl) as (m & Hm & Hreq & _).
    exists m. split; [exact Hm|exact Hreq].
  - destruct (get_requests_bounded string 1 (Some (-5)%Z) flaky_network
                "http://example.org") as (_ & Hrej & _).
    exact (Hrej eq_refl).
Defined.

Lemma httpGet_warns_with_retries_witness :
  warnings (snd (httpGet flaky_network "http://example.org"
                   (Some {| opt_retries := Some 1%Z; opt_timeout := None |})))
  = [{| attempt := 1; total := 1; target := "http://example.org" |}]
  /\ warnings (snd (get (constructor {| opt_retries := Some 1%Z; opt_timeout := None |})
                      flaky_network "http://example.org"))
     = [{| attempt := 1; total := 2; target := "http://example.org" |}].
Proof.
  destruct (httpGet_warns_with_retries string 1 None flaky_network
              "http://example.org") as (_ & _ & Hwarn & _).
  split; [|reflexivity]. etransitivity; [exact Hwarn|reflexivity].
Defined.

End Http.

(** ** Concurrency *)

Module Concurrency.

Section Scheduler.
Context {V E : Type}.

(** How the promise returned by a task settles. *)
Inductive settlement :=
| Fulfills (v : V)
| RejectsWith (e : E).

(** A task, [() => Promise<T>], seen from the scheduler: the settlement of the
    promise returned by its [k]-th call, counting from 0. A deterministic
    task ignores [k]. *)
Abbreviation task := (nat -> settlement).

(** What a [#runOne] call can reject with: the error of a task, or the
    [TypeError] of calling [this.#promises[index]] where there is no task. *)
Inductive error :=
| TaskError (e : E)
| NotAFunction (slot : nat).

(** The promise returned by one of the [#runOne] calls of [run], with the
    calls made below it. The recursive call [await this.#runOne(nextIndex)]
    keeps the caller suspended on the callee, so the chain is one worker
    that moves from slot to slot. The worker is suspended at the [await] of
    its innermost call on the task of [slot], which will settle as [o]; or
    its calls have ended and the promise is fulfilled; or its innermost call
    has thrown [err] and callers are still suspended on it; or the promise
    is rejected with [err].

    When the innermost call ends, its callers end in turn without running
    any other statement and the promise is fulfilled: this is one turn here,
    since [Promise.all] waits for every promise and a fulfilled one changes
    nothing that another call reads. When the innermost call throws, each
    caller is resumed in a turn of its own and rethrows; other workers run,
    and may reject, in between. *)
Inductive worker :=
| Awaiting (slot : nat) (o : settlement)
| Finished
| Rethrowing (err : error)
| Crashed (err : error).

(** The instrumentation: a task is called, or the task awaited at a slot has
    settled and [#runOne] is resumed with its value (and stores it) or with
    its error. *)
Inductive event :=
| Invoked (slot : nat)
| Fulfilled (slot : nat) (v : V)
| Rejected (slot : nat) (e : E).

(** The three private fields; the array [executing] of [run]; for each of
    its promises, the number of [#runOne] calls suspended at
    [await this.#runOne(nextIndex)] below it; the first rejection seen by
    [Promise.all(executing)]; and the events so far, newest first.
    [results] is a JavaScript array: [None] is a hole. *)
Record state := {
  promises : list task;
  results : list (option V);
  index : nat;
  executing : list worker;
  callers : list nat;
  rejection : option error;
  log : list event
}.

Definition constructor (tasks : list task) : state :=
  {| promises := tasks; results := []; index := 0;
     executing := []; callers := []; rejection := None; log := [] |}.

(** [a[i] = v] on a JavaScript array: an index past the end extends the array
    with holes. *)
Definition store (a : list (option V)) (i : nat) (v : V) : list (option V) :=
  if decide (i < length a) then <[i := Some v]> a
  else a ++ replicate (i - length a) None ++ [Some v].

(** [a[i]], [None] standing for [undefined]. *)
Definition read (a : list (option V)) (i : nat) : option V :=
  a !! i ≫= id.

(** Number of calls of the task of a slot. *)
Fixpoint calls (slot : nat) (l : list event) : nat :=
  match l with
  | [] => 0
  | Invoked i :: l' => (if decide (i = slot) then 1 else 0) + calls slot l'
  | _ :: l' => calls slot l'
  end.

(** Number of assignments [this.#results[slot] = result]. *)
Fixpoint writes (slot : nat) (l : list event) : nat :=
  match l with
  | [] => 0
  | Fulfilled i _ :: l' => (if decide (i = slot) then 1 else 0) + writes slot l'
  | _ :: l' => writes slot l'
  end.

(** The counter of the test: incremented when a task starts, decremented
    when it ends; and the largest value it has had. A task is counted until
    its worker is resumed, which is not before its promise has settled, so
    the counter is at least the number of tasks in progress. *)
Fixpoint in_flight (l : list event) : nat :=
  match l with
  | [] => 0
  | Invoked _ :: l' => S (in_flight l')
  | _ :: l' => pred (in_flight l')
  end.

Fixpoint peak (l : list event) : nat :=
  match l with
  | [] => 0
  | _ :: l' => in_flight l `max` peak l'
  end.

(** [Promise.all] keeps the first rejection. *)
Definition observe (err : error) (seen : option error) : option error :=
  match seen with
  | None => Some err
  | Some _ => seen
  end.

(** [#runOne(index)] up to its first suspension: the task is called and the
    call is left awaiting its promise, which will settle as [inr]; or there
    is no task to call and the call throws at once, [inl]. *)
Definition runOne (i : nat) (s : state) : (error + settlement) * state :=
  match promises s !! i with
  | Some t =>
      (inr (t (calls i (log s))),
       {| promises := promises s; results := results s; index := index s;
          executing := executing s; callers := callers s;
          rejection := rejection s; log := Invoked i :: log s |})
  | None => (inl (NotAFunction i), s)
  end.

(** [executing.push(this.#runOne(i))]: the promise of the call is one of
    those handed to [Promise.all], and no call is suspended below it. *)
Definition push (s : state) (i : nat) : state :=
  let (r, s1) := runOne i s in
  match r with
  | inr o =>
      {| promises := promises s1; results := results s1; index := index s1;
         executing := executing s1 ++ [Awaiting i o];
         callers := callers s1 ++ [0];
         rejection := rejection s1; log := log s1 |}
  | inl err =>
      {| promises := promises s1; results := results s1; index := index s1;
         executing := executing s1 ++ [Crashed err];
         callers := callers s1 ++ [0];
         rejection := observe err (rejection s1); log := log s1 |}
  end.

(** [run], up to [await Promise.all(executing)]. *)
Definition run (batchSize : Z) (s : state) : state :=
  let size := Z.min batchSize (Z.of_nat (length (promises s))) in
  foldl push s (seq 0 (Z.to_nat size)).

(** The number of callers suspended below the innermost call of worker
    [w]. *)
Definition depth (w : nat) (s : state) : nat := default 0 (callers s !! w).

(** The innermost call of worker [w] throws [err], which rejects its
    promise. With no caller below it, that promise is the one of
    [executing], and [Promise.all] sees the rejection; otherwise it is the
    promise that the caller awaits, and nothing else is told. *)
Definition throw (w : nat) (err : error) (s : state) : state :=
  match depth w s with
  | 0 =>
      {| promises := promises s; results := results s; index := index s;
         executing := <[w := Crashed err]> (executing s);
         callers := callers s;
         rejection := observe err (rejection s); log := log s |}
  | S _ =>
      {| promises := promises s; results := results s; index := index s;
         executing := <[w := Rethrowing err]> (executing s);
         callers := callers s;
         rejection := rejection s; log := log s |}
  end.

(** The rest of [#runOne], run when the promise awaited by worker [w] has
    settled. The whole continuation runs without interruption, up to the
    [await] of the next task or to the end of the call; the call of
    [#runOne(nextIndex)] leaves the current call suspended below the new
    one. A rejection is rethrown by the [await]. [None]: worker [w] is not
    suspended on a task. *)
Definition resume (w : nat) (s : state) : option state :=
  match executing s !! w with
  | Some (Awaiting i (Fulfills result)) =>
      let results1 := store (results s) i result in
      let log1 := Fulfilled i result :: log s in
      if (Z.of_nat (index s) <? Z.of_nat (length (promises s)) - 1)%Z then
        let nextIndex := S (index s) in
        if (nextIndex <? length (promises s))%nat then
          let (r, s2) :=
            runOne nextIndex
              {| promises := promises s; results := results1; index := nextIndex;
                 executing := executing s;
                 callers := <[w := S (depth w s)]> (callers s);
                 rejection := rejection s; log := log1 |} in
          match r with
          | inr o =>
              Some {| promises := promises s2; results := results s2;
                      index := index s2;
                      executing := <[w := Awaiting nextIndex o]> (executing s2);
                      callers := callers s2;
                      rejection := rejection s2; log := log s2 |}
          | inl err =>
              Some {| promises := promises s2; results := results s2;
                      index := index s2;
                      executing := <[w := Rethrowing err]> (executing s2);
                      callers := callers s2;
                      rejection := rejection s2; log := log s2 |}
          end
        else
          Some {| promises := promises s; results := results1; index := nextIndex;
                  executing := <[w := Finished]> (executing s);
                  callers := <[w := 0]> (callers s);
                  rejection := rejection s; log := log1 |}
      else
        Some {| promises := promises s; results := results1; index := index s;
                executing := <[w := Finished]> (executing s);
                callers := <[w := 0]> (callers s);
                rejection := rejection s; log := log1 |}
  | Some (Awaiting i (RejectsWith e)) =>
      Some (throw w (TaskError e)
              {| promises := promises s; results := results s; index := index s;
                 executing := executing s; callers := callers s;
                 rejection := rejection s; log := Rejected i e :: log s |})
  | _ => None
  end.

(** The caller suspended on a call that has thrown is resumed by the
    rejection of the promise it awaits: [await this.#runOne(nextIndex)]
    rethrows, [#runOne] has no handler, and the caller throws in its turn.
    [None]: no caller of worker [w] is waiting for a rejected promise. *)
Definition unwind (w : nat) (s : state) : option state :=
  match executing s !! w, callers s !! w with
  | Some (Rethrowing err), Some (S c) =>
      Some (throw w err
              {| promises := promises s; results := results s; index := index s;
                 executing := executing s; callers := <[w := c]> (callers s);
                 rejection := rejection s; log := log s |})
  | _, _ => None
  end.

(** One turn of worker [w]: its suspended call is resumed, by the settlement
    of its task or by the rejection of the call it awaits. *)
Definition turn (w : nat) (s : state) : option state :=
  match resume w s with
  | Some s' => Some s'
  | None => unwind w s
  end.

(** One turn of the event loop: some suspended call is resumed. The order
    in which the workers take their turns is not constrained: it stands for
    the order in which the promises settle. *)
Definition step (s s' : state) : Prop := exists w, turn w s = Some s'.

(** A schedule names the worker that runs at each turn. *)
Fixpoint play (schedule : list nat) (s : state) : option state :=
  match schedule with
  | [] => Some s
  | w :: rest => turn w s ≫= play rest
  end.

(** The promise returned by [run]. *)
Inductive outcome :=
| Pending
| Resolved (vector : list (option V))
| RejectedWith (err : error).

Definition is_finished (w : worker) : bool :=
  match w with
  | Finished => true
  | _ => false
  end.

(** [run] rejects with the first rejection of a promise of [executing]; it
    returns [[...this.#results]], where a hole reads as [undefined], once
    every promise is fulfilled. *)
Definition status (s : state) : outcome :=
  match rejection s with
  | Some err => RejectedWith err
  | None => if forallb is_finished (executing s) then Resolved (results s) else Pending
  end.

(** Number of workers suspended on a task. *)
Fixpoint in_progress (ws : list worker) : nat :=
  match ws with
  | [] => 0
  | Awaiting _ _ :: ws' => S (in_progress ws')
  | _ :: ws' => in_progress ws'
  end.

(** Number of workers whose promise is not settled. *)
Fixpoint unsettled (ws : list worker) : nat :=
  match ws with
  | [] => 0
  | Awaiting _ _ :: ws' => S (unsettled ws')
  | Rethrowing _ :: ws' => S (unsettled ws')
  | _ :: ws' => unsettled ws'
  end.

(** The turns, as a relation: worker [w] stores a value and claims the next
    slot; stores a value and ends; sees its task fail with no caller below,
    or with callers; rethrows from its last caller, or from another one. *)
Inductive moves (w : nat) (s : state) : state -> Prop :=
| Claims i v t :
    executing s !! w = Some (Awaiting i (Fulfills v)) ->
    S (index s) < length (promises s) ->
    promises s !! S (index s) = Some t ->
    moves w s
      {| promises := promises s; results := store (results s) i v;
         index := S (index s);
         executing :=
           <[w := Awaiting (S (index s)) (t (calls (S (index s)) (log s)))]>
             (executing s);
         callers := <[w := S (depth w s)]> (callers s);
         rejection := rejection s;
         log := Invoked (S (index s)) :: Fulfilled i v :: log s |}
| Ends i v :
    executing s !! w = Some (Awaiting i (Fulfills v)) ->
    length (promises s) <= S (index s) ->
    moves w s
      {| promises := promises s; results := store (results s) i v;
         index := index s;
         executing := <[w := Finished]> (executing s);
         callers := <[w := 0]> (callers s);
         rejection := rejection s;
         log := Fulfilled i v :: log s |}
| Fails i e :
    executing s !! w = Some (Awaiting i (RejectsWith e)) ->
    depth w s = 0 ->
    moves w s
      {| promises := promises s; results := results s; index := index s;
         executing := <[w := Crashed (TaskError e)]> (executing s);
         callers := callers s;
         rejection := observe (TaskError e) (rejection s);
         log := Rejected i e :: log s |}
| Throws i e :
    executing s !! w = Some (Awaiting i (RejectsWith e)) ->
    0 < depth w s ->
    moves w s
      {| promises := promises s; results := results s; index := index s;
         executing := <[w := Rethrowing (TaskError e)]> (executing s);
         callers := callers s;
         rejection := rejection s;
         log := Rejected i e :: log s |}
| Rejects err :
    executing s !! w = Some (Rethrowing err) ->
    callers s !! w = Some 1 ->
    moves w s
      {| promises := promises s; results := results s; index := index s;
         executing := <[w := Crashed err]> (executing s);
         callers := <[w := 0]> (callers s);
         rejection := observe err (rejection s);
         log := log s |}
| Rethrows err c :
    executing s !! w = Some (Rethrowing err) ->
    callers s !! w = Some (S (S c)) ->
    moves w s
      {| promises := promises s; results := results s; index := index s;
         executing := <[w := Rethrowing err]> (executing s);
         callers := <[w := S c]> (callers s);
         rejection := rejection s;
         log := log s |}.

(** *** Arrays and workers *)

Lemma read_lookup (a : list (option V)) i v :
  read a i = Some v <-> a !! i = Some (Some v).
Proof.
  unfold read. destruct (a !! i) as [[x|]|]; simpl; split; congruence.
Qed.

Lemma read_store_eq (a : list (option V)) i v : read (store a i v) i = Some v.
Proof.
  unfold read, store. destruct (decide (i < length a)) as [Hlt|Hge].
  - now rewrite list_lookup_insert_eq.
  - rewrite lookup_app_r by lia.
    rewrite lookup_app_r by (rewrite length_replicate; lia).
    rewrite length_replicate. now rewrite Nat.sub_diag.
Qed.

Lemma read_store_ne (a : list (option V)) i j v :
  i <> j -> read (store a i v) j = read a j.
Proof.
  intros Hne. unfold read, store. destruct (decide (i < length a)) as [Hlt|Hge].
  - now rewrite list_lookup_insert_ne.
  - destruct (decide (j < length a)) as [Hj|Hj].
    + now rewrite lookup_app_l.
    + rewrite lookup_app_r by lia. rewrite (lookup_ge_None_2 a j) by lia.
      destruct (decide (j - length a < i - length a)) as [Hin|Hout].
      * rewrite lookup_app_l by (rewrite length_replicate; lia).
        rewrite lookup_replicate_2 by lia. reflexivity.
      * rewrite lookup_app_r by (rewrite length_replicate; lia).
        rewrite length_replicate.
        destruct (j - length a - (i - length a)) as [|k] eqn:Hk; [lia|].
        reflexivity.
Qed.

Lemma length_store (a : list (option V)) i v :
  length (store a i v) = length a `max` S i.
Proof.
  unfold store. destruct (decide (i < length a)).
  - rewrite length_insert. lia.
  - rewrite !length_app, length_replicate. simpl. lia.
Qed.

Lemma in_progress_insert (ws : list worker) w x y :
  ws !! w = Some y ->
  in_progress (<[w := x]> ws) + in_progress [y] = in_progress ws + in_progress [x].
Proof.
  revert w. induction ws as [|z ws IH]; intros [|w] Hw; simpl in Hw; try discriminate.
  - injection Hw as ->. simpl. destruct x, y; simpl; lia.
  - specialize (IH w Hw). simpl. destruct z; simpl in *; lia.
Qed.

Lemma in_progress_le (ws : list worker) : in_progress ws <= length ws.
Proof. induction ws as [|[]]; simpl; lia. Qed.

Lemma in_progress_pos (ws : list worker) w i o :
  ws !! w = Some (Awaiting i o) -> 0 < in_progress ws.
Proof.
  revert w. induction ws as [|z ws IH]; intros [|w] Hw; simpl in Hw; try discriminate.
  - injection Hw as ->. simpl. lia.
  - specialize (IH w Hw). destruct z; simpl; lia.
Qed.


Lemma unsettled_0 (ws : list worker) :
  unsettled ws = 0 ->
  forall w x, ws !! w = Some x -> x = Finished \/ exists err, x = Crashed err.
Proof.
  induction ws as [|z ws IH]; intros H0 [|w] x Hw; simpl in Hw; try discriminate.
  - injection Hw as ->. destruct x as [i o| |err|err]; simpl in H0; try lia; eauto.
  - destruct z; simpl in H0; try lia; eapply IH; eauto.
Qed.

Lemma sum_list_insert (l : list nat) w x y :
  l !! w = Some y -> sum_list (<[w := x]> l) + y = sum_list l + x.
Proof.
  revert w. induction l as [|z l IH]; intros [|w] Hw; simpl in Hw; try discriminate.
  - injection Hw as ->. simpl. lia.
  - specialize (IH w Hw). simpl. lia.
Qed.

(** *** The turns *)

Lemma resume_moves w s s' : resume w s = Some s' -> moves w s s'.
Proof.
  unfold resume. destruct (executing s !! w) as [[i [v|e]| | |]|] eqn:Hw;
    try discriminate.
  - destruct (Z.of_nat (index s) <? Z.of_nat (length (promises s)) - 1)%Z eqn:Hlt.
    + apply Z.ltb_lt in Hlt.
      destruct (Nat.ltb_spec (S (index s)) (length (promises s))) as [Hn|Hn]; [|lia].
      unfold runOne. cbn [promises].
      destruct (promises s !! S (index s)) as [t|] eqn:Ht.
      * cbn [promises results index executing callers rejection log].
        intros [= <-]. now apply Claims.
      * apply lookup_ge_None in Ht. lia.
    + apply Z.ltb_ge in Hlt. intros [= <-]. apply Ends; [exact Hw|lia].
  - unfold throw, depth. cbn [callers promises results index executing rejection log].
    destruct (default 0 (callers s !! w)) as [|c] eqn:Hd; intros [= <-].
    + now apply Fails.
    + apply Throws; [exact Hw|]. unfold depth. lia.
Qed.

Lemma unwind_moves w s s' : unwind w s = Some s' -> moves w s s'.
Proof.
  unfold unwind. destruct (executing s !! w) as [[i o| |err|err]|] eqn:Hw;
    try discriminate.
  destruct (callers s !! w) as [[|c]|] eqn:Hc; try discriminate.
  assert (Hlt : w < length (callers s)) by (eapply lookup_lt_Some; eauto).
  unfold throw, depth. cbn [callers promises results index executing rejection log].
  rewrite list_lookup_insert_eq by exact Hlt. simpl.
  destruct c as [|c]; intros [= <-].
  - now apply Rejects.
  - now apply Rethrows with (c := c).
Qed.

Lemma turn_moves w s s' : turn w s = Some s' <-> moves w s s'.
Proof.
  split.
  - unfold turn. destruct (resume w s) as [s1|] eqn:Hs1.
    + intros [= <-]. now apply resume_moves.
    + apply unwind_moves.
  - intros Hm. unfold turn, resume, unwind, throw, depth.
    destruct Hm as [i v t Hw Hn Ht|i v Hw Hn|i e Hw Hd|i e Hw Hd|err Hw Hc|err c Hw Hc];
      rewrite Hw.
    + destruct (Z.of_nat (index s) <? Z.of_nat (length (promises s)) - 1)%Z eqn:Hlt;
        [|apply Z.ltb_ge in Hlt; lia].
      destruct (Nat.ltb_spec (S (index s)) (length (promises s))) as [_|Hge]; [|lia].
      unfold runOne. cbn [promises]. rewrite Ht. reflexivity.
    + destruct (Z.of_nat (index s) <? Z.of_nat (length (promises s)) - 1)%Z eqn:Hlt;
        [apply Z.ltb_lt in Hlt; lia|].
      reflexivity.
    + cbn [callers]. unfold depth in Hd. rewrite Hd. reflexivity.
    + cbn [callers]. unfold depth in Hd.
      destruct (default 0 (callers s !! w)); [lia|reflexivity].
    + rewrite Hc. cbn [callers].
      rewrite list_lookup_insert_eq by (eapply lookup_lt_Some; eauto). reflexivity.
    + rewrite Hc. cbn [callers].
      rewrite list_lookup_insert_eq by (eapply lookup_lt_Some; eauto). reflexivity.
Qed.

Lemma step_moves s s' : step s s' <-> exists w, moves w s s'.
Proof. unfold step. split; intros [w Hw]; exists w; now apply turn_moves. Qed.

Lemma resume_turn w s s' : resume w s = Some s' -> turn w s = Some s'.
Proof. unfold turn. now intros ->. Qed.

Lemma resume_awaiting w s i o :
  executing s !! w = Some (Awaiting i o) -> exists s', resume w s = Some s'.
Proof.
  intros Hw. unfold resume. rewrite Hw. destruct o as [v|e]; [|eauto].
  destruct (_ <? _)%Z; [|eauto].
  destruct (_ <? _)%nat; [|eauto].
  destruct (runOne _ _) as [[err|o] s2]; eauto.
Qed.

(** Where every promise of [executing] is settled, no turn is possible. *)
Lemma nf_unsettled s : unsettled (executing s) = 0 -> nf step s.
Proof.
  intros H0 (s' & Hstep). apply step_moves in Hstep. destruct Hstep as [w Hm].
  assert (Hw : exists x, executing s !! w = Some x
                         /\ x <> Finished /\ forall err, x <> Crashed err).
  { destruct Hm; eexists; (split; [eassumption|split; [discriminate|]]);
      intros; discriminate. }
  destruct Hw as (x & Hw & Hfin & Hcr).
  destruct (unsettled_0 _ H0 _ _ Hw) as [->|[err ->]]; [easy|].
  now apply (Hcr err).
Qed.

(** Every turn consumes a unit of: tasks in progress, callers suspended, and
    twice the slots not yet claimed. *)
Definition work (s : state) : nat :=
  in_progress (executing s) + sum_list (callers s)
  + 2 * (length (promises s) - S (index s)).

Lemma sum_list_claim (l : list nat) w :
  sum_list (<[w := S (default 0 (l !! w))]> l) <= S (sum_list l).
Proof.
  destruct (l !! w) as [c|] eqn:Hc.
  - pose proof (sum_list_insert l w (S c) c Hc). simpl. lia.
  - rewrite list_insert_ge by (now apply lookup_ge_None). lia.
Qed.

Lemma sum_list_reset (l : list nat) w : sum_list (<[w := 0]> l) <= sum_list l.
Proof.
  destruct (l !! w) as [c|] eqn:Hc.
  - pose proof (sum_list_insert l w 0 c Hc). lia.
  - rewrite list_insert_ge by (now apply lookup_ge_None). lia.
Qed.

Lemma step_work s s' : step s s' -> work s' < work s.
Proof.
  intros Hstep. apply step_moves in Hstep. destruct Hstep as [w Hm].
  destruct Hm as [i v t Hw Hn Ht|i v Hw Hn|i e Hw Hd|i e Hw Hd|err Hw Hc|err c Hw Hc];
    unfold work; cbn [promises results index executing callers rejection log];
    pose proof (fun x => in_progress_insert (executing s) w x _ Hw) as Hins;
    simpl in Hins.
  - specialize (Hins (Awaiting (S (index s)) (t (calls (S (index s)) (log s))))).
    simpl in Hins. pose proof (sum_list_claim (callers s) w). unfold depth. lia.
  - specialize (Hins Finished). simpl in Hins.
    pose proof (sum_list_reset (callers s) w). lia.
  - specialize (Hins (Crashed (TaskError e))). simpl in Hins. lia.
  - specialize (Hins (Rethrowing (TaskError e))). simpl in Hins. lia.
  - specialize (Hins (Crashed err)). simpl in Hins.
    pose proof (sum_list_insert _ _ 0 _ Hc). lia.
  - specialize (Hins (Rethrowing err)). simpl in Hins.
    pose proof (sum_list_insert _ _ (S c) _ Hc). lia.
Qed.

(** No schedule is infinite. *)
Lemma step_sn s : sn step s.
Proof.
  remember (work s) as m eqn:Hm. revert s Hm.
  induction m as [m IH] using lt_wf_ind. intros s ->.
  constructor. intros s' Hstep. simpl in Hstep.
  eapply IH; [apply step_work; exact Hstep|reflexivity].
Qed.


(** *** The state in which [run] suspends *)

Lemma calls_app i (l1 l2 : list event) : calls i (l1 ++ l2) = calls i l1 + calls i l2.
Proof.
  induction l1 as [|[j|j v|j e] l1 IH]; simpl; [reflexivity| |exact IH|exact IH].
  rewrite IH. lia.
Qed.

Lemma calls_initial i k :
  calls i (reverse (Invoked <$> seq 0 k)) = if decide (i < k) then 1 else 0.
Proof.
  induction k as [|k IH].
  - change (calls i (reverse (Invoked <$> seq 0 0))) with 0.
    destruct (decide (i < 0)); [lia|reflexivity].
  - rewrite seq_S, fmap_app, reverse_app, calls_app, IH. simpl.
    repeat case_decide; lia.
Qed.

Definition initial (tasks : list task) (size : nat) : state :=
  {| promises := tasks; results := []; index := 0;
     executing := imap (fun i t => Awaiting i (t 0)) (take size tasks);
     callers := replicate size 0;
     rejection := None;
     log := reverse (Invoked <$> seq 0 size) |}.

Lemma pushes_initial (tasks : list task) k :
  k <= length tasks ->
  foldl push (constructor tasks) (seq 0 k) = initial tasks k.
Proof.
  induction k as [|k IH]; intros Hk; [reflexivity|].
  rewrite seq_S, foldl_app, IH by lia. simpl.
  destruct (lookup_lt_is_Some_2 tasks k) as [t Ht]; [lia|].
  unfold push, runOne, initial.
  cbn [promises log executing callers results index rejection].
  rewrite Ht. cbn [promises log executing callers results index rejection].
  rewrite calls_initial. case_decide; [lia|].
  f_equal.
  - rewrite (take_S_r _ _ _ Ht), imap_app. simpl.
    rewrite length_take, Nat.min_l by lia. now rewrite Nat.add_0_r.
  - now rewrite replicate_S_end.
  - rewrite seq_S, fmap_app, reverse_app. reflexivity.
Qed.

Definition width (batchSize : Z) (tasks : list task) : nat :=
  Z.to_nat (Z.min batchSize (Z.of_nat (length tasks))).

Lemma run_initial (tasks : list task) batchSize :
  run batchSize (constructor tasks) = initial tasks (width batchSize tasks).
Proof. unfold run. apply pushes_initial. simpl. unfold width. lia. Qed.

Lemma width_le batchSize (tasks : list task) : width batchSize tasks <= length tasks.
Proof. unfold width. lia. Qed.

Lemma initial_executing (tasks : list task) size w x :
  executing (initial tasks size) !! w = Some x <->
  w < size /\ exists t, tasks !! w = Some t /\ x = Awaiting w (t 0).
Proof.
  simpl. rewrite list_lookup_imap. split.
  - destruct (take size tasks !! w) as [t|] eqn:Ht; [|discriminate].
    simpl. intros [= <-]. apply lookup_take_Some in Ht. destruct Ht as [Ht Hw].
    split; [exact Hw|]. exists t. auto.
  - intros (Hw & t & Ht & ->). rewrite lookup_take_lt by exact Hw.
    now rewrite Ht.
Qed.

Lemma in_progress_imap (l : list task) k :
  in_progress (imap (fun i t => Awaiting (k + i) (t 0)) l) = length l.
Proof.
  revert k. induction l as [|t l IH]; intros k; [reflexivity|]. simpl. f_equal.
  rewrite <- (IH (S k)). f_equal. apply imap_ext. intros i x _. simpl.
  f_equal. lia.
Qed.

Lemma in_flight_initial k : in_flight (reverse (Invoked <$> seq 0 k)) = k.
Proof.
  induction k as [|k IH]; [reflexivity|].
  rewrite seq_S, fmap_app, reverse_app. simpl. now rewrite IH.
Qed.

Lemma peak_initial k : peak (reverse (Invoked <$> seq 0 k)) = k.
Proof.
  induction k as [|k IH]; [reflexivity|].
  pose proof (in_flight_initial (S k)) as Hf.
  rewrite seq_S, fmap_app, reverse_app in *. simpl in *.
  rewrite IH. rewrite in_flight_initial in *. lia.
Qed.


(** *** The invariant of a run *)

(** The slots whose task has been called: those of the initial window and
    those the cursor has passed. *)
Definition claimed (size : nat) (s : state) (i : nat) : Prop :=
  i < size \/ 1 <= i <= index s.

Record inv (tasks : list task) (size : nat) (s : state) : Prop := {
  inv_promises : promises s = tasks;
  inv_size : length (executing s) = size;
  inv_callers : length (callers s) = size;
  inv_index : index s <= length tasks - 1;
  inv_calls : forall i,
    calls i (log s)
    = (if decide (i < size) then 1 else 0)
      + (if decide (1 <= i <= index s) then 1 else 0);
  inv_awaiting : forall w i o,
    executing s !! w = Some (Awaiting i o) ->
    claimed size s i /\ exists t k, tasks !! i = Some t /\ o = t k;
  inv_finished : forall w,
    executing s !! w = Some Finished -> length tasks <= S (index s);
  inv_rethrowing : forall w err,
    executing s !! w = Some (Rethrowing err) ->
    0 < depth w s /\ exists i e, err = TaskError e /\ In (Rejected i e) (log s);
  inv_crashed : forall w err,
    executing s !! w = Some (Crashed err) ->
    is_Some (rejection s)
    /\ exists i e, err = TaskError e /\ In (Rejected i e) (log s);
  inv_rejection : forall err,
    rejection s = Some err -> exists w, executing s !! w = Some (Crashed err);
  inv_failed : forall i e,
    In (Rejected i e) (log s) ->
    exists w err, executing s !! w = Some (Rethrowing err)
                  \/ executing s !! w = Some (Crashed err);
  inv_rejected : forall i e,
    In (Rejected i e) (log s) ->
    exists t k, tasks !! i = Some t /\ t k = RejectsWith e;
  inv_results : forall i v,
    read (results s) i = Some v ->
    exists t k, tasks !! i = Some t /\ t k = Fulfills v;
  inv_results_length : length (results s) <= length tasks;
  inv_cover : forall i,
    claimed size s i ->
    (exists w o, executing s !! w = Some (Awaiting i o))
    \/ is_Some (read (results s) i)
    \/ exists e, In (Rejected i e) (log s);
  inv_flight : in_flight (log s) = in_progress (executing s);
  inv_peak : peak (log s) <= size
}.

Lemma inv_initial (tasks : list task) size :
  size <= length tasks -> inv tasks size (initial tasks size).
Proof.
  intros Hsize.
  assert (Hlog : forall i e, ~ In (Rejected i e) (log (initial tasks size))).
  { intros i e Hin. cbn [log initial] in Hin.
    apply list_elem_of_In, elem_of_reverse, list_elem_of_fmap in Hin.
    destruct Hin as (k & [=] & _). }
  split.
  - reflexivity.
  - simpl. rewrite length_imap, length_take. lia.
  - simpl. apply length_replicate.
  - simpl. lia.
  - intros i. cbn [log index initial]. rewrite calls_initial.
    destruct (decide (1 <= i <= 0)); [lia|]. lia.
  - intros w i o Hw. apply initial_executing in Hw.
    destruct Hw as (Hlt & t & Ht & [= -> ->]). split; [now left|eauto].
  - intros w Hw. apply initial_executing in Hw.
    destruct Hw as (_ & t & _ & [=]).
  - intros w err Hw. apply initial_executing in Hw.
    destruct Hw as (_ & t & _ & [=]).
  - intros w err Hw. apply initial_executing in Hw.
    destruct Hw as (_ & t & _ & [=]).
  - intros err [=].
  - intros i e Hin. now apply Hlog in Hin.
  - intros i e Hin. now apply Hlog in Hin.
  - intros i v. unfold read. simpl. discriminate.
  - simpl. lia.
  - intros i [Hi|Hi]; [|simpl in Hi; lia]. left.
    destruct (lookup_lt_is_Some_2 tasks i) as [t Ht]; [lia|].
    exists i, (t 0). apply initial_executing. eauto.
  - cbn [log executing initial]. rewrite in_flight_initial.
    rewrite (in_progress_imap _ 0), length_take. lia.
  - cbn [log initial]. rewrite peak_initial. lia.
Qed.

Ltac lookup_insert_cases H :=
  apply list_lookup_insert_Some in H;
  destruct H as [(<- & H & _)|(? & H)]; [try discriminate H|].

Lemma failed_kept (ws : list worker) w i o x w' err :
  ws !! w = Some (Awaiting i o) ->
  ws !! w' = Some (Rethrowing err) \/ ws !! w' = Some (Crashed err) ->
  <[w := x]> ws !! w' = Some (Rethrowing err)
  \/ <[w := x]> ws !! w' = Some (Crashed err).
Proof.
  intros Hw Hw'. assert (Hne : w <> w') by (intros ->; destruct Hw'; congruence).
  now rewrite !list_lookup_insert_ne.
Qed.

Lemma inv_moves (tasks : list task) size w s s' :
  size <= length tasks -> inv tasks size s -> moves w s s' -> inv tasks size s'.
Proof.
  intros Hsize I Hm.
  destruct I as [Ip Isz Icl Iidx Icalls Iaw Ifin Irt Icr Irej Ifail Irejd Ires
                 Ireslen Icov Ifl Ipk].
  pose proof (in_progress_le (executing s)) as Hle.
  destruct Hm as [i v t Hw Hn Ht|i v Hw Hn|i e Hw Hd|i e Hw Hd|err Hw Hc|err c Hw Hc];
    assert (Hwlt : w < length (executing s)) by (eapply lookup_lt_Some; eauto);
    pose proof (fun x => in_progress_insert (executing s) w x _ Hw) as Hins;
    split; unfold claimed, depth in *;
    cbn [promises results index executing callers rejection log].
  (* a fulfilled task, then the claim of the next slot *)
  - exact Ip.
  - now rewrite length_insert.
  - now rewrite length_insert.
  - rewrite Ip in Hn. lia.
  - intros j. cbn [calls]. rewrite Icalls. repeat case_decide; lia.
  - intros w' j o' Hw'. lookup_insert_cases Hw'.
    + injection Hw' as <- <-. split; [right; lia|].
      rewrite Ip in Ht. eauto.
    + destruct (Iaw _ _ _ Hw') as (Hc & Hex). split; [|exact Hex].
      destruct Hc; [left|right]; lia.
  - intros w' Hw'. lookup_insert_cases Hw'. apply Ifin in Hw'. lia.
  - intros w' err Hw'. lookup_insert_cases Hw'.
    rewrite list_lookup_insert_ne by assumption.
    destruct (Irt _ _ Hw') as (Hdp & j & e & -> & Hin).
    split; [exact Hdp|]. exists j, e. split; [reflexivity|]. now do 2 right.
  - intros w' err Hw'. lookup_insert_cases Hw'.
    destruct (Icr _ _ Hw') as (Hsome & j & e & -> & Hin).
    split; [exact Hsome|]. exists j, e. split; [reflexivity|]. now do 2 right.
  - intros err Hrej. destruct (Irej _ Hrej) as [w' Hw']. exists w'.
    rewrite list_lookup_insert_ne; [exact Hw'|]. intros ->. congruence.
  - intros j e [Heq|[Heq|Hin]]; try discriminate.
    destruct (Ifail _ _ Hin) as (w' & err & Hw'). exists w', err.
    eapply failed_kept; eauto.
  - intros j e [Heq|[Heq|Hj]]; try discriminate. eauto.
  - intros j v' Hr. destruct (Iaw _ _ _ Hw) as (_ & t0 & k0 & Ht0 & Ho).
    destruct (decide (i = j)) as [<-|Hne].
    + rewrite read_store_eq in Hr. injection Hr as <-. eauto.
    + rewrite read_store_ne in Hr by exact Hne. eauto.
  - destruct (Iaw _ _ _ Hw) as (_ & t0 & k0 & Ht0 & Ho).
    apply lookup_lt_Some in Ht0. rewrite length_store. lia.
  - intros j Hj. destruct (decide (j = S (index s))) as [->|Hne].
    { left. eexists w, _. apply list_lookup_insert_eq. exact Hwlt. }
    destruct (Icov j) as [(w' & o' & Hw')|[Hr|[e Hr]]]; [lia| | |].
    + destruct (decide (w' = w)) as [->|Hnw].
      * rewrite Hw in Hw'. injection Hw' as <- <-.
        right. left. rewrite read_store_eq. eauto.
      * left. exists w', o'. now rewrite list_lookup_insert_ne.
    + right. left. destruct (decide (i = j)) as [<-|Hij].
      * rewrite read_store_eq. eauto.
      * now rewrite read_store_ne.
    + right. right. exists e. now do 2 right.
  - cbn [in_flight]. rewrite Ifl.
    specialize (Hins (Awaiting (S (index s)) (t (calls (S (index s)) (log s))))).
    pose proof (in_progress_pos _ _ _ _ Hw). simpl in Hins. lia.
  - cbn [peak in_flight]. rewrite Ifl.
    pose proof (in_progress_pos _ _ _ _ Hw). lia.
  (* a fulfilled task that ends the worker *)
  - exact Ip.
  - now rewrite length_insert.
  - now rewrite length_insert.
  - exact Iidx.
  - intros j. cbn [calls]. apply Icalls.
  - intros w' j o' Hw'. lookup_insert_cases Hw'. eauto.
  - intros w' Hw'. rewrite Ip in Hn. exact Hn.
  - intros w' err Hw'. lookup_insert_cases Hw'.
    rewrite list_lookup_insert_ne by assumption.
    destruct (Irt _ _ Hw') as (Hdp & j & e & -> & Hin).
    split; [exact Hdp|]. exists j, e. split; [reflexivity|]. now right.
  - intros w' err Hw'. lookup_insert_cases Hw'.
    destruct (Icr _ _ Hw') as (Hsome & j & e & -> & Hin).
    split; [exact Hsome|]. exists j, e. split; [reflexivity|]. now right.
  - intros err Hrej. destruct (Irej _ Hrej) as [w' Hw']. exists w'.
    rewrite list_lookup_insert_ne; [exact Hw'|]. intros ->. congruence.
  - intros j e [Heq|Hin]; try discriminate.
    destruct (Ifail _ _ Hin) as (w' & err & Hw'). exists w', err.
    eapply failed_kept; eauto.
  - intros j e [Heq|Hj]; try discriminate. eauto.
  - intros j v' Hr. destruct (Iaw _ _ _ Hw) as (_ & t0 & k0 & Ht0 & Ho).
    destruct (decide (i = j)) as [<-|Hne].
    + rewrite read_store_eq in Hr. injection Hr as <-. eauto.
    + rewrite read_store_ne in Hr by exact Hne. eauto.
  - destruct (Iaw _ _ _ Hw) as (_ & t0 & k0 & Ht0 & Ho).
    apply lookup_lt_Some in Ht0. rewrite length_store. lia.
  - intros j Hj.
    destruct (Icov j Hj) as [(w' & o' & Hw')|[Hr|[e Hr]]].
    + destruct (decide (w' = w)) as [->|Hnw].
      * rewrite Hw in Hw'. injection Hw' as <- <-.
        right. left. rewrite read_store_eq. eauto.
      * left. exists w', o'. now rewrite list_lookup_insert_ne.
    + right. left. destruct (decide (i = j)) as [<-|Hij].
      * rewrite read_store_eq. eauto.
      * now rewrite read_store_ne.
    + right. right. exists e. now right.
  - cbn [in_flight]. rewrite Ifl. specialize (Hins Finished). simpl in Hins.
    pose proof (in_progress_pos _ _ _ _ Hw). lia.
  - cbn [peak in_flight]. rewrite Ifl. lia.
  (* a rejected task, no caller below *)
  - exact Ip.
  - now rewrite length_insert.
  - exact Icl.
  - exact Iidx.
  - intros j. cbn [calls]. apply Icalls.
  - intros w' j o' Hw'. lookup_insert_cases Hw'. eauto.
  - intros w' Hw'. lookup_insert_cases Hw'. eauto.
  - intros w' err Hw'. lookup_insert_cases Hw'.
    destruct (Irt _ _ Hw') as (Hdp & j & e' & -> & Hin).
    split; [exact Hdp|]. exists j, e'. split; [reflexivity|]. now right.
  - intros w' err Hw'. split; [destruct (rejection s); simpl; eauto|].
    apply list_lookup_insert_Some in Hw'.
    destruct Hw' as [(<- & [= <-] & _)|(? & Hw')].
    + exists i, e. split; [reflexivity|]. now left.
    + destruct (Icr _ _ Hw') as (_ & j & e' & -> & Hin).
      exists j, e'. split; [reflexivity|]. now right.
  - intros err Hrej. destruct (rejection s) as [err0|] eqn:Hr0; simpl in Hrej.
    + injection Hrej as <-. destruct (Irej _ eq_refl) as [w' Hw']. exists w'.
      rewrite list_lookup_insert_ne; [exact Hw'|]. intros ->. congruence.
    + injection Hrej as <-. exists w. now apply list_lookup_insert_eq.
  - intros j e' [Heq|Hin].
    + exists w, (TaskError e). right. now apply list_lookup_insert_eq.
    + destruct (Ifail _ _ Hin) as (w' & err & Hw'). exists w', err.
      eapply failed_kept; eauto.
  - destruct (Iaw _ _ _ Hw) as (_ & t0 & k0 & Ht0 & Ho).
    intros j e' [Heq|Hj]; [|eauto]. injection Heq as <- <-. eauto.
  - exact Ires.
  - exact Ireslen.
  - intros j Hj.
    destruct (Icov j Hj) as [(w' & o' & Hw')|[Hr|[e' Hr]]].
    + destruct (decide (w' = w)) as [->|Hnw].
      * rewrite Hw in Hw'. injection Hw' as <- <-.
        right. right. exists e. now left.
      * left. exists w', o'. now rewrite list_lookup_insert_ne.
    + right. now left.
    + right. right. exists e'. now right.
  - cbn [in_flight]. rewrite Ifl.
    specialize (Hins (Crashed (TaskError e))). simpl in Hins. lia.
  - cbn [peak in_flight]. rewrite Ifl. lia.
  (* a rejected task, with callers below *)
  - exact Ip.
  - now rewrite length_insert.
  - exact Icl.
  - exact Iidx.
  - intros j. cbn [calls]. apply Icalls.
  - intros w' j o' Hw'. lookup_insert_cases Hw'. eauto.
  - intros w' Hw'. lookup_insert_cases Hw'. eauto.
  - intros w' err Hw'. apply list_lookup_insert_Some in Hw'.
    destruct Hw' as [(<- & [= <-] & _)|(? & Hw')].
    + split; [exact Hd|]. exists i, e. split; [reflexivity|]. now left.
    + destruct (Irt _ _ Hw') as (Hdp & j & e' & -> & Hin).
      split; [exact Hdp|]. exists j, e'. split; [reflexivity|]. now right.
  - intros w' err Hw'. lookup_insert_cases Hw'.
    destruct (Icr _ _ Hw') as (Hsome & j & e' & -> & Hin).
    split; [exact Hsome|]. exists j, e'. split; [reflexivity|]. now right.
  - intros err Hrej. destruct (Irej _ Hrej) as [w' Hw']. exists w'.
    rewrite list_lookup_insert_ne; [exact Hw'|]. intros ->. congruence.
  - intros j e' [Heq|Hin].
    + exists w, (TaskError e). left. now apply list_lookup_insert_eq.
    + destruct (Ifail _ _ Hin) as (w' & err & Hw'). exists w', err.
      eapply failed_kept; eauto.
  - destruct (Iaw _ _ _ Hw) as (_ & t0 & k0 & Ht0 & Ho).
    intros j e' [Heq|Hj]; [|eauto]. injection Heq as <- <-. eauto.
  - exact Ires.
  - exact Ireslen.
  - intros j Hj.
    destruct (Icov j Hj) as [(w' & o' & Hw')|[Hr|[e' Hr]]].
    + destruct (decide (w' = w)) as [->|Hnw].
      * rewrite Hw in Hw'. injection Hw' as <- <-.
        right. right. exists e. now left.
      * left. exists w', o'. now rewrite list_lookup_insert_ne.
    + right. now left.
    + right. right. exists e'. now right.
  - cbn [in_flight]. rewrite Ifl.
    specialize (Hins (Rethrowing (TaskError e))). simpl in Hins. lia.
  - cbn [peak in_flight]. rewrite Ifl. lia.
  (* the last caller rethrows *)
  - exact Ip.
  - now rewrite length_insert.
  - now rewrite length_insert.
  - exact Iidx.
  - exact Icalls.
  - intros w' j o' Hw'. lookup_insert_cases Hw'. eauto.
  - intros w' Hw'. lookup_insert_cases Hw'. eauto.
  - intros w' err' Hw'. lookup_insert_cases Hw'.
    rewrite list_lookup_insert_ne by assumption. eauto.
  - intros w' err' Hw'. split; [destruct (rejection s); simpl; eauto|].
    apply list_lookup_insert_Some in Hw'.
    destruct Hw' as [(<- & [= <-] & _)|(? & Hw')].
    + apply (Irt _ _ Hw).
    + apply (Icr _ _ Hw').
  - intros err' Hrej. destruct (rejection s) as [err0|] eqn:Hr0; simpl in Hrej.
    + injection Hrej as <-. destruct (Irej _ eq_refl) as [w' Hw']. exists w'.
      rewrite list_lookup_insert_ne; [exact Hw'|]. intros ->. congruence.
    + injection Hrej as <-. exists w. now apply list_lookup_insert_eq.
  - intros j e' Hin. destruct (Ifail _ _ Hin) as (w' & err' & Hw').
    destruct (decide (w' = w)) as [->|Hnw].
    + exists w, err. right. now apply list_lookup_insert_eq.
    + exists w', err'. now rewrite !list_lookup_insert_ne.
  - exact Irejd.
  - exact Ires.
  - exact Ireslen.
  - intros j Hj.
    destruct (Icov j Hj) as [(w' & o' & Hw')|[Hr|Hr]]; [|now right; left|now do 2 right].
    left. exists w', o'. rewrite list_lookup_insert_ne; [exact Hw'|].
    intros ->. congruence.
  - rewrite Ifl. specialize (Hins (Crashed err)). simpl in Hins. lia.
  - exact Ipk.
  (* another caller rethrows *)
  - exact Ip.
  - now rewrite length_insert.
  - now rewrite length_insert.
  - exact Iidx.
  - exact Icalls.
  - intros w' j o' Hw'. lookup_insert_cases Hw'. eauto.
  - intros w' Hw'. lookup_insert_cases Hw'. eauto.
  - intros w' err' Hw'. apply list_lookup_insert_Some in Hw'.
    destruct Hw' as [(<- & [= <-] & _)|(? & Hw')].
    + rewrite list_lookup_insert_eq by (eapply lookup_lt_Some; eauto).
      split; [simpl; lia|]. apply (Irt _ _ Hw).
    + rewrite list_lookup_insert_ne by assumption. eauto.
  - intros w' err' Hw'. lookup_insert_cases Hw'. eauto.
  - intros err' Hrej. destruct (Irej _ Hrej) as [w' Hw']. exists w'.
    rewrite list_lookup_insert_ne; [exact Hw'|]. intros ->. congruence.
  - intros j e' Hin. destruct (Ifail _ _ Hin) as (w' & err' & Hw').
    destruct (decide (w' = w)) as [->|Hnw].
    + exists w, err. left. now apply list_lookup_insert_eq.
    + exists w', err'. now rewrite !list_lookup_insert_ne.
  - exact Irejd.
  - exact Ires.
  - exact Ireslen.
  - intros j Hj.
    destruct (Icov j Hj) as [(w' & o' & Hw')|[Hr|Hr]]; [|now right; left|now do 2 right].
    left. exists w', o'. rewrite list_lookup_insert_ne; [exact Hw'|].
    intros ->. congruence.
  - rewrite Ifl. specialize (Hins (Rethrowing err)). simpl in Hins. lia.
  - exact Ipk.
Qed.

Lemma inv_step (tasks : list task) size s s' :
  size <= length tasks -> inv tasks size s -> step s s' -> inv tasks size s'.
Proof.
  intros Hsize I Hstep. apply step_moves in Hstep. destruct Hstep as [w Hm].
  eapply inv_moves; eauto.
Qed.

Lemma inv_reachable (tasks : list task) batchSize s :
  rtc step (run batchSize (constructor tasks)) s ->
  inv tasks (width batchSize tasks) s.
Proof.
  intros Hreach. apply rtc_nsteps_1 in Hreach. destruct Hreach as [m Hm].
  revert s Hm. induction m as [|m IH]; intros s Hm.
  - inversion Hm; subst. rewrite run_initial. apply inv_initial, width_le.
  - apply nsteps_inv_r in Hm. destruct Hm as (s1 & Hm & Hstep).
    eapply inv_step; [apply width_le|apply IH; exact Hm|exact Hstep].
Qed.

(** *** Consequences of the invariant *)

Lemma play_rtc schedule s s' : play schedule s = Some s' -> rtc step s s'.
Proof.
  revert s. induction schedule as [|w rest IH]; intros s Hplay; simpl in Hplay.
  - injection Hplay as ->. constructor.
  - destruct (turn w s) as [s1|] eqn:Hs1; [|discriminate].
    econstructor; [exists w; exact Hs1|]. apply IH, Hplay.
Qed.


Lemma in_flight_le_peak (l : list event) : in_flight l <= peak l.
Proof. destruct l; simpl; lia. Qed.

(** Tasks that fulfil at every call, and lists of deterministic tasks. *)
Definition all_fulfil (tasks : list task) : Prop :=
  forall i t k, tasks !! i = Some t -> exists v, t k = Fulfills v.

Definition settling (outs : list settlement) : list task :=
  (fun o _ => o) <$> outs.

Definition fulfilling (vs : list V) : list task := settling (Fulfills <$> vs).

Lemma settling_lookup outs i (t : task) k :
  settling outs !! i = Some t -> outs !! i = Some (t k).
Proof.
  unfold settling. rewrite list_lookup_fmap.
  destruct (outs !! i); simpl; [|discriminate]. now intros [= <-].
Qed.

Lemma length_settling outs : length (settling outs) = length outs.
Proof. unfold settling. apply length_fmap. Qed.

Lemma fulfilling_lookup vs i (t : task) k :
  fulfilling vs !! i = Some t -> exists v, vs !! i = Some v /\ t k = Fulfills v.
Proof.
  intros Ht. apply (settling_lookup _ _ _ k) in Ht.
  rewrite list_lookup_fmap in Ht. destruct (vs !! i) as [v|]; [|discriminate].
  injection Ht as <-. eauto.
Qed.

Lemma fulfilling_all vs : all_fulfil (fulfilling vs).
Proof.
  intros i t k Ht. destruct (fulfilling_lookup _ _ _ k Ht) as (v & _ & Hv). eauto.
Qed.

Lemma length_fulfilling vs : length (fulfilling vs) = length vs.
Proof. unfold fulfilling, settling. now rewrite !length_fmap. Qed.

(** When every call fulfils, no failure is ever logged, no call is ever
    rethrowing and nothing is rejected. *)
Lemma no_failure (tasks : list task) size s i e :
  inv tasks size s -> all_fulfil tasks -> ~ In (Rejected i e) (log s).
Proof.
  intros I Hall Hin.
  destruct (inv_rejected _ _ _ I _ _ Hin) as (t & k & Ht & Hk).
  destruct (Hall _ _ k Ht) as [v Hv]. congruence.
Qed.

Lemma no_rejection (tasks : list task) size s :
  inv tasks size s -> all_fulfil tasks -> rejection s = None.
Proof.
  intros I Hall. destruct (rejection s) as [err|] eqn:Hrej; [|reflexivity].
  destruct (inv_rejection _ _ _ I _ Hrej) as [w Hw].
  destruct (inv_crashed _ _ _ I _ _ Hw) as (_ & i & e & _ & Hin).
  now apply (no_failure _ _ _ _ _ I Hall) in Hin.
Qed.

(** Where no turn is possible, every promise of [executing] is settled. *)
Lemma settled_workers (tasks : list task) size s :
  inv tasks size s -> nf step s ->
  forall w x, executing s !! w = Some x -> x = Finished \/ exists err, x = Crashed err.
Proof.
  intros I Hnf w x Hw. destruct x as [i o| |err|err]; eauto; exfalso; apply Hnf.
  - destruct (resume_awaiting _ _ _ _ Hw) as [s' Hs']. exists s', w.
    now apply resume_turn.
  - destruct (inv_rethrowing _ _ _ I _ _ Hw) as (Hd & _). unfold depth in Hd.
    destruct (callers s !! w) as [[|[|c]]|] eqn:Hc; simpl in Hd; try lia.
    + eexists. apply step_moves. exists w. now apply Rejects with (err := err).
    + eexists. apply step_moves. exists w.
      now apply Rethrows with (err := err) (c := c).
Qed.



(** At the end of a run in which no rejection was seen, the cursor is on the
    last slot and every slot holds a value. *)
Lemma end_of_run (tasks : list task) size s :
  inv tasks size s -> 1 <= size <= length tasks -> nf step s ->
  rejection s = None ->
  (forall w x, executing s !! w = Some x -> x = Finished)
  /\ S (index s) = length tasks
  /\ forall i, i < length tasks -> is_Some (read (results s) i).
Proof.
  intros I Hsize Hnf Hrej.
  assert (Hfin : forall w x, executing s !! w = Some x -> x = Finished).
  { intros w x Hw. destruct (settled_workers _ _ _ I Hnf _ _ Hw) as [->|[err ->]];
      [reflexivity|].
    apply (inv_crashed _ _ _ I) in Hw. rewrite Hrej in Hw. destruct Hw as [[? [=]] _]. }
  assert (Hidx : S (index s) = length tasks).
  { destruct (lookup_lt_is_Some_2 (executing s) 0) as [x Hx].
    { rewrite (inv_size _ _ _ I). lia. }
    pose proof (Hfin _ _ Hx) as ->. apply (inv_finished _ _ _ I) in Hx.
    pose proof (inv_index _ _ _ I). lia. }
  split; [exact Hfin|]. split; [exact Hidx|].
  intros i Hi.
  destruct (inv_cover _ _ _ I i) as [(w & o & Hw)|[Hr|[e Hr]]].
  - unfold claimed. lia.
  - apply Hfin in Hw. discriminate Hw.
  - exact Hr.
  - destruct (inv_failed _ _ _ I _ _ Hr) as (w & err & [Hw|Hw]);
      apply Hfin in Hw; discriminate Hw.
Qed.

Lemma finished_unsettled (ws : list worker) :
  forallb is_finished ws = true -> unsettled ws = 0.
Proof.
  induction ws as [|[]]; simpl; intros Hall; try discriminate; auto.
Qed.

Lemma status_pending (tasks : list task) size s :
  inv tasks size s -> rejection s = None -> ~ nf step s -> status s = Pending.
Proof.
  intros I Hrej Hnf. unfold status. rewrite Hrej.
  destruct (forallb is_finished (executing s)) eqn:Hall; [|reflexivity].
  exfalso. now apply Hnf, nf_unsettled, finished_unsettled.
Qed.

Lemma status_resolved s :
  rejection s = None ->
  (forall w x, executing s !! w = Some x -> x = Finished) ->
  status s = Resolved (results s).
Proof.
  intros Hrej Hfin. unfold status. rewrite Hrej.
  replace (forallb is_finished (executing s)) with true; [reflexivity|].
  symmetry. revert Hfin. generalize (executing s). intros ws.
  induction ws as [|x ws IH]; intros Hfin; [reflexivity|]. simpl.
  rewrite (Hfin 0 x eq_refl). simpl. apply IH.
  intros w y Hw. apply (Hfin (S w)). exact Hw.
Qed.

(** With deterministic tasks that all fulfil, the vector at the end is the
    list of their values, whatever the width and the schedule. *)
Lemma resolved_in_order (vs : list V) size s :
  inv (fulfilling vs) size s -> 1 <= size <= length vs -> nf step s ->
  status s = Resolved (Some <$> vs).
Proof.
  intros I Hsize Hnf.
  pose proof (no_rejection _ _ _ I (fulfilling_all vs)) as Hrej.
  destruct (end_of_run _ _ _ I) as (Hfin & Hidx & Hall);
    [rewrite length_fulfilling; lia|exact Hnf|exact Hrej|].
  rewrite length_fulfilling in *.
  rewrite (status_resolved _ Hrej Hfin). f_equal.
  pose proof (inv_results_length _ _ _ I) as Hlen.
  rewrite length_fulfilling in Hlen.
  apply list_eq. intros i. rewrite list_lookup_fmap.
  destruct (decide (i < length vs)) as [Hi|Hi].
  - destruct (Hall i Hi) as [v Hv].
    destruct (inv_results _ _ _ I _ _ Hv) as (t & k & Ht & Hk).
    destruct (fulfilling_lookup _ _ _ k Ht) as (v' & Hv' & Hk').
    apply read_lookup in Hv. rewrite Hv, Hv'. simpl. congruence.
  - rewrite (lookup_ge_None_2 vs) by lia. simpl.
    apply lookup_ge_None_2. lia.
Qed.


(** *** More on the turns *)

Lemma step_rejection_kept s s' err :
  step s s' -> rejection s = Some err -> rejection s' = Some err.
Proof.
  intros Hstep Hrej. apply step_moves in Hstep. destruct Hstep as [w Hm].
  destruct Hm; simpl; rewrite Hrej; reflexivity.
Qed.

(** A settled promise stays as it is. *)
Lemma status_kept s s' :
  rtc step s s' -> status s <> Pending -> status s' = status s.
Proof.
  intros Hreach Hset. unfold status in *.
  destruct (rejection s) as [err|] eqn:Hrej.
  - assert (Hrej' : rejection s' = Some err).
    { clear Hset. induction Hreach as [|s s1 s' Hstep _ IH]; [exact Hrej|].
      apply IH. eapply step_rejection_kept; eauto. }
    now rewrite Hrej'.
  - destruct (forallb is_finished (executing s)) eqn:Hall; [|congruence].
    pose proof (finished_unsettled _ Hall) as Hnf. apply nf_unsettled in Hnf.
    pose proof (rtc_nf _ _ Hreach Hnf) as <-. now rewrite Hrej, Hall.
Qed.



(** The state with another record of the rejections seen. *)
Definition with_rejection (seen : option error) (s : state) : state :=
  {| promises := promises s; results := results s; index := index s;
     executing := executing s; callers := callers s; rejection := seen;
     log := log s |}.

(** What a resumed worker does to the results, the cursor, the workers and
    the log does not depend on the rejections seen so far. *)
Lemma resume_ignores_rejection w s s' seen :
  resume w s = Some s' ->
  exists seen', resume w (with_rejection seen s) = Some (with_rejection seen' s').
Proof.
  unfold resume, throw, depth, runOne.
  cbn [with_rejection executing promises index results callers log rejection].
  destruct (executing s !! w) as [[i [v|e]| | |]|]; try discriminate.
  - destruct (_ <? _)%Z.
    + destruct (_ <? _)%nat.
      * destruct (promises s !! S (index s));
          cbn [with_rejection executing promises index results callers log rejection];
          intros [= <-]; eexists; reflexivity.
      * intros [= <-]. eexists. reflexivity.
    + intros [= <-]. eexists. reflexivity.
  - destruct (default 0 (callers s !! w)); intros [= <-]; eexists; reflexivity.
Qed.












(** A rejection in the log is that of a task that was called. *)
Lemma rejected_was_called (tasks : list task) batchSize s i e :
  rtc step (run batchSize (constructor tasks)) s ->
  In (Rejected i e) (log s) -> 0 < calls i (log s).
Proof.
  intros Hreach. revert i e. revert s Hreach.
  apply (rtc_ind_r (fun s => forall i e, In (Rejected i e) (log s) -> 0 < calls i (log s)));
    [intros j e' Hin|intros s s' Hreach Hstep IH j e' Hin].
  - rewrite run_initial in Hin. cbn [log initial] in Hin.
    apply list_elem_of_In, elem_of_reverse, list_elem_of_fmap in Hin.
    destruct Hin as (k & [=] & _).
  - pose proof (inv_reachable _ _ _ Hreach) as I.
    apply step_moves in Hstep. destruct Hstep as [w Hm].
    assert (Hnew : forall i0 e0,
              executing s !! w = Some (Awaiting i0 (RejectsWith e0)) ->
              0 < calls i0 (log s)).
    { intros i0 e0 Hw. destruct (inv_awaiting _ _ _ I _ _ _ Hw) as (Hcl & _).
      rewrite (inv_calls _ _ _ I). unfold claimed in Hcl.
      repeat case_decide; lia. }
    destruct Hm as [i v t Hw Hn Ht|i v Hw Hn|i e Hw Hd|i e Hw Hd|err Hw Hc|err c Hw Hc];
      cbn [log calls] in *.
    + destruct Hin as [Heq|[Heq|Hin]]; try discriminate.
      apply IH in Hin. lia.
    + destruct Hin as [Heq|Hin]; try discriminate. eauto.
    + destruct Hin as [Heq|Hin]; [|eauto]. injection Heq as <- <-. eauto.
    + destruct Hin as [Heq|Hin]; [|eauto]. injection Heq as <- <-. eauto.
    + eauto.
    + eauto.
Qed.

(** *** Width 1 *)

(** With a single worker, the task awaited is the one under the cursor. *)
Lemma sequential_worker (tasks : list task) batchSize s :
  width batchSize tasks = 1 ->
  rtc step (run batchSize (constructor tasks)) s ->
  forall w i o, executing s !! w = Some (Awaiting i o) -> i = index s.
Proof.
  intros Hone. revert s.
  apply (rtc_ind_r (fun s => forall w i o,
           executing s !! w = Some (Awaiting i o) -> i = index s));
    [intros w' j o' Hw'|intros s s' Hreach Hstep IH w' j o' Hw'].
  - rewrite run_initial, Hone in *. apply initial_executing in Hw'.
    destruct Hw' as (Hlt & t & _ & [= -> _]). simpl. lia.
  - pose proof (inv_reachable _ _ _ Hreach) as I.
    pose proof (inv_size _ _ _ I) as Hlen. rewrite Hone in Hlen.
    apply step_moves in Hstep. destruct Hstep as [w Hm].
    assert (Hw0 : w = 0).
    { destruct Hm as [? ? ? Hw|? ? Hw|? ? Hw|? ? Hw|? Hw|? ? Hw];
        apply lookup_lt_Some in Hw; lia. }
    assert (Hw'0 : w' = 0).
    { apply lookup_lt_Some in Hw'.
      destruct Hm; cbn [executing] in Hw'; rewrite length_insert in Hw'; lia. }
    subst w w'.
    destruct Hm; cbn [executing index] in *;
      rewrite list_lookup_insert_eq in Hw' by lia; congruence.
Qed.

(** With a single worker and deterministic tasks, the cursor never passes a
    task that rejects. *)
Lemma sequential_cursor outs batchSize f e s :
  width batchSize (settling outs) = 1 ->
  outs !! f = Some (RejectsWith e) ->
  rtc step (run batchSize (constructor (settling outs))) s ->
  index s <= f.
Proof.
  intros Hone Hf. revert s.
  apply rtc_ind_r; [|intros s s' Hreach Hstep IH].
  - rewrite run_initial. simpl. lia.
  - pose proof (inv_reachable _ _ _ Hreach) as I.
    pose proof (sequential_worker _ _ _ Hone Hreach) as Hseq.
    apply step_moves in Hstep. destruct Hstep as [w Hm].
    destruct Hm as [i v t Hw Hn Ht|i v Hw Hn|i e' Hw Hd|i e' Hw Hd|err Hw Hc|err c Hw Hc];
      cbn [index]; try exact IH.
    pose proof (Hseq _ _ _ Hw) as ->.
    destruct (inv_awaiting _ _ _ I _ _ _ Hw) as (_ & t0 & k & Ht0 & Hk).
    apply (settling_lookup _ _ _ k) in Ht0.
    destruct (decide (index s = f)) as [Heq|Hne]; [|lia].
    rewrite Heq in Ht0. congruence.
Qed.

(** The error that [run] is rejected with is that of a task that was seen
    to fail. *)
Lemma rejected_with_failure (tasks : list task) size s err :
  inv tasks size s -> rejection s = Some err ->
  exists i e t k, err = TaskError e /\ In (Rejected i e) (log s)
                  /\ tasks !! i = Some t /\ t k = RejectsWith e.
Proof.
  intros I Hrej. destruct (inv_rejection _ _ _ I _ Hrej) as [w Hw].
  destruct (inv_crashed _ _ _ I _ _ Hw) as (_ & i & e & -> & Hin).
  destruct (inv_rejected _ _ _ I _ _ Hin) as (t & k & Ht & Hk).
  exists i, e, t, k. auto.
Qed.

(** When a deterministic task rejects and the width is at least 1, the end
    of every schedule has seen a rejection, that of a rejecting task. *)
Lemma rejected_at_end outs batchSize s :
  (1 <= batchSize)%Z ->
  (exists i e, outs !! i = Some (RejectsWith e)) ->
  rtc step (run batchSize (constructor (settling outs))) s -> nf step s ->
  exists j e, rejection s = Some (TaskError e)
              /\ In (Rejected j e) (log s)
              /\ outs !! j = Some (RejectsWith e).
Proof.
  intros Hb (i & e & Hi) Hreach Hnf.
  pose proof (inv_reachable _ _ _ Hreach) as I.
  pose proof (length_settling outs) as Hlen.
  assert (Hin : i < length outs) by (eapply lookup_lt_Some; eauto).
  destruct (rejection s) as [err|] eqn:Hrej.
  - destruct (rejected_with_failure _ _ _ _ I Hrej) as (j & e' & t & k & -> & Hj & Ht & Hk).
    exists j, e'. split; [reflexivity|]. split; [exact Hj|].
    apply (settling_lookup _ _ _ k) in Ht. congruence.
  - exfalso.
    destruct (end_of_run _ _ _ I) as (_ & _ & Hall);
      [unfold width; rewrite Hlen; lia|exact Hnf|exact Hrej|].
    destruct (Hall i) as [v Hv]; [lia|].
    destruct (inv_results _ _ _ I _ _ Hv) as (t & k & Ht & Hk).
    apply (settling_lookup _ _ _ k) in Ht. congruence.
Qed.

End Scheduler.

Arguments settlement : clear implicits.
Arguments error : clear implicits.
Arguments worker : clear implicits.
Arguments event : clear implicits.
Arguments state : clear implicits.
Arguments outcome : clear implicits.

Abbreviation task V E := (nat -> settlement V E).

(** *** The task lists of the tests *)

(** Three tasks resolving to 1, 2 and 3. *)
Definition three_ok : list (task nat string) := fulfilling [1; 2; 3].

(** Two tasks resolving, as the two handler calls of the [Fetcher] test. *)
Definition two_ok : list (task nat string) := fulfilling [1; 2].

(** The second of three tasks rejects. *)
Definition one_fails : list (task nat string) :=
  settling [Fulfills 1; RejectsWith "Failed"; Fulfills 3].

(** Two tasks that both reject. *)
Definition two_fail : list (task nat string) :=
  settling [RejectsWith "first"; RejectsWith "second"].

(** Ten tasks resolving to their slot, as in the test of the limit. *)
Definition ten_ok : list (task nat string) := fulfilling (seq 0 10).



(** *** The claims about [Concurrency] *)

(** C1. For deterministic tasks with values [vs] and a width between 1 and
    their number, no schedule is infinite, the promise of [run] is pending
    until no task is in progress, and it is then resolved with a vector of
    the same length whose entry [i] is the value of task [i], whatever the
    order in which the tasks completed. For the empty list [run] is resolved
    with the empty vector before any step. *)
Theorem run_resolves_in_task_order (V E : Type) :
  (forall (vs : list V) (b : Z),
      (1 <= b <= Z.of_nat (length vs))%Z ->
      let s0 : state V E := run b (constructor (fulfilling vs)) in
      sn step s0
      /\ forall s, rtc step s0 s ->
           (nf step s -> status s = Resolved (Some <$> vs))
           /\ (~ nf step s -> status s = Pending))
  /\ (forall b : Z,
        let s0 : state V E := run b (constructor []) in
        status s0 = Resolved [] /\ log s0 = [] /\ nf step s0).
Proof.
  split.
  - intros vs b Hb s0. split; [apply step_sn|].
    intros s Hreach. apply inv_reachable in Hreach.
    assert (Hw : 1 <= width b (fulfilling (E:=E) vs) <= length vs).
    { unfold width. rewrite length_fulfilling. lia. }
    split.
    + intros Hnf. eapply resolved_in_order; eauto.
    + intros Hnf. eapply status_pending; [exact Hreach| |exact Hnf].
      eapply no_rejection; [exact Hreach|apply fulfilling_all].
  - intros b s0. subst s0. rewrite run_initial.
    assert (Hw : width b ([] : list (task V E)) = 0) by (unfold width; simpl; lia).
    rewrite Hw. split; [reflexivity|]. split; [reflexivity|].
    apply nf_unsettled. reflexivity.
Qed.

(** C1 on the three tasks of the test with width 2, under two schedules. *)
Lemma run_resolves_in_task_order_witness :
  (status <$> play [0; 1; 0; 1] (run 2 (constructor three_ok)))
  = Some (Resolved [Some 1; Some 2; Some 3])
  /\ (status <$> play [1; 1; 0; 1] (run 2 (constructor three_ok)))
     = Some (Resolved [Some 1; Some 2; Some 3]).
Proof.
  destruct (run_resolves_in_task_order nat string) as [Hrun _].
  destruct (Hrun [1; 2; 3] 2%Z) as [_ Hend]; [simpl; lia|].
  split.
  - destruct (play [0; 1; 0; 1] (run 2 (constructor three_ok))) as [s|] eqn:Hs;
      [|discriminate Hs].
    simpl. f_equal. apply Hend; [apply (play_rtc _ _ _ Hs)|].
    apply nf_unsettled. vm_compute in Hs. injection Hs as <-. reflexivity.
  - destruct (play [1; 1; 0; 1] (run 2 (constructor three_ok))) as [s|] eqn:Hs;
      [|discriminate Hs].
    simpl. f_equal. apply Hend; [apply (play_rtc _ _ _ Hs)|].
    apply nf_unsettled. vm_compute in Hs. injection Hs as <-. reflexivity.
Defined.

(** C2 at its failing input, the two tasks of the [Fetcher] test with the
    width 4 of [Fetcher.run]: the worker of slot 0 claims slot 1, whose task
    is already in progress, so the second task is called twice and its slot
    written twice; three calls are made for two tasks. *)
Theorem second_task_called_twice :
  exists s : state nat string,
    play [0; 1; 0] (run 4 (constructor two_ok)) = Some s
    /\ status s = Resolved [Some 1; Some 2]
    /\ calls 0 (log s) = 1 /\ calls 1 (log s) = 2
    /\ writes 0 (log s) = 1 /\ writes 1 (log s) = 2.
Proof. eexists. repeat split; reflexivity. Qed.

(** The same under every schedule. *)
Lemma second_task_every_schedule (s : state nat string) :
  rtc step (run 4 (constructor two_ok)) s -> nf step s -> calls 1 (log s) = 2.
Proof.
  intros Hreach Hnf. apply inv_reachable in Hreach.
  pose proof (no_rejection _ _ _ Hreach (fulfilling_all _)) as Hrej.
  destruct (end_of_run _ _ _ Hreach) as (_ & Hidx & _);
    [vm_compute; lia|exact Hnf|exact Hrej|].
  rewrite (inv_calls _ _ _ Hreach). simpl in Hidx.
  injection Hidx as Hidx. rewrite Hidx.
  change (width 4 two_ok) with 2. reflexivity.
Qed.

(** C3, amended. When every call of every task fulfils, with at least two
    tasks and a width of at least 2, at the end of every schedule the tasks
    of slots 1 to [min b n - 1] have been called exactly twice and the others
    exactly once; for deterministic tasks the vector is that of their
    values. *)
Theorem window_slots_run_twice
  (V E : Type) (tasks : list (task V E)) (b : Z) (s : state V E) :
  all_fulfil tasks -> 2 <= length tasks -> (2 <= b)%Z ->
  rtc step (run b (constructor tasks)) s -> nf step s ->
  (forall i, i < length tasks ->
     calls i (log s)
     = if decide (1 <= Z.of_nat i < Z.min b (Z.of_nat (length tasks)))%Z
       then 2 else 1)
  /\ (forall vs, tasks = fulfilling vs -> status s = Resolved (Some <$> vs)).
Proof.
  intros Hall Hn Hb Hreach Hnf. apply inv_reachable in Hreach.
  pose proof (no_rejection _ _ _ Hreach Hall) as Hrej.
  assert (Hw : 1 <= width b tasks <= length tasks) by (unfold width; lia).
  destruct (end_of_run _ _ _ Hreach Hw Hnf Hrej) as (_ & Hidx & _).
  split.
  - intros i Hi. rewrite (inv_calls _ _ _ Hreach). unfold width.
    repeat case_decide; lia.
  - intros vs ->. rewrite length_fulfilling in Hw.
    eapply resolved_in_order; eauto.
Qed.

(** C3 on the three tasks of the test with width 2. *)
Lemma window_slots_run_twice_witness :
  exists s : state nat string,
    play [0; 1; 0; 1] (run 2 (constructor three_ok)) = Some s
    /\ calls 0 (log s) = 1 /\ calls 1 (log s) = 2 /\ calls 2 (log s) = 1.
Proof.
  destruct (play [0; 1; 0; 1] (run 2 (constructor three_ok))) as [s|] eqn:Hs;
    [|discriminate Hs].
  exists s. split; [reflexivity|].
  destruct (window_slots_run_twice nat string three_ok 2 s) as [Hcalls _].
  - apply fulfilling_all.
  - simpl. lia.
  - lia.
  - apply (play_rtc _ _ _ Hs).
  - apply nf_unsettled. vm_compute in Hs. injection Hs as <-. reflexivity.
  - split; [|split].
    + apply (Hcalls 0). simpl. lia.
    + apply (Hcalls 1). simpl. lia.
    + apply (Hcalls 2). simpl. lia.
Defined.

(** C3 as stated fails when tasks reject: with two rejecting tasks and width
    2, both workers end at their first task and slot 1 is called once. *)
Lemma window_slots_counterexample :
  ~ (forall (tasks : list (task nat string)) (b : Z) (s : state nat string),
        2 <= length tasks -> (2 <= b)%Z ->
        rtc step (run b (constructor tasks)) s -> nf step s ->
        forall i, (1 <= Z.of_nat i < Z.min b (Z.of_nat (length tasks)))%Z ->
                  calls i (log s) = 2).
Proof.
  intros Hclaim.
  destruct (play [0; 1] (run 2 (constructor two_fail))) as [s|] eqn:Hs;
    [|discriminate Hs].
  specialize (Hclaim two_fail 2%Z s).
  assert (Hcalls : calls 1 (log s) = 2).
  { apply Hclaim.
    - simpl. lia.
    - lia.
    - apply (play_rtc _ _ _ Hs).
    - apply nf_unsettled. vm_compute in Hs. injection Hs as <-. reflexivity.
    - simpl. lia. }
  vm_compute in Hs. injection Hs as <-. discriminate Hcalls.
Qed.

(** C4. With a width of at least 1, in every state of every schedule the
    counter of tasks in progress has never exceeded [min width n]; the
    counter is the number of suspended workers. *)
Theorem tasks_in_progress_bounded
  (V E : Type) (tasks : list (task V E)) (b : Z) (s : state V E) :
  (1 <= b)%Z ->
  rtc step (run b (constructor tasks)) s ->
  (Z.of_nat (peak (log s)) <= Z.min b (Z.of_nat (length tasks)))%Z
  /\ in_flight (log s) <= peak (log s)
  /\ in_flight (log s) = in_progress (executing s).
Proof.
  intros Hb Hreach. apply inv_reachable in Hreach.
  pose proof (inv_peak _ _ _ Hreach) as Hpeak. unfold width in Hpeak.
  split; [lia|]. split; [apply in_flight_le_peak|].
  apply (inv_flight _ _ _ Hreach).
Qed.

(** C4 on ten tasks with width 3, as in the test. *)
Lemma tasks_in_progress_bounded_witness :
  exists s : state nat string,
    rtc step (run 3 (constructor ten_ok)) s
    /\ (Z.of_nat (peak (log s)) <= 3)%Z.
Proof.
  pose (r := play [0; 1; 2; 2; 0; 1; 1] (run 3 (constructor ten_ok))).
  assert (Hr : is_Some r) by (vm_compute; eauto).
  destruct Hr as [s Hs]. exists s.
  assert (Hreach : rtc step (run 3 (constructor ten_ok)) s)
    by exact (play_rtc _ _ _ Hs).
  split; [exact Hreach|].
  apply (tasks_in_progress_bounded nat string ten_ok 3 s); [lia|exact Hreach].
Defined.




(** C9 at its failing input, three tasks with width 2: two slots are claimed
    up front and the cursor starts at 0, not at 1; its first move claims
    slot 1 a second time. *)
Theorem cursor_starts_at_zero :
  let s0 : state nat string := run 2 (constructor three_ok) in
  executing s0 = [Awaiting 0 (Fulfills 1); Awaiting 1 (Fulfills 2)]
  /\ index s0 = 0
  /\ exists s1, resume 0 s0 = Some s1
                /\ index s1 = 1
                /\ executing s1 = [Awaiting 1 (Fulfills 2); Awaiting 1 (Fulfills 2)].
Proof. repeat split. eexists. repeat split. Qed.


(** C10. On a non-empty task list, a width of 0 or less starts no worker:
    [run] is resolved with the empty vector, no task has been called, nothing
    is rejected and no step is possible. *)
Theorem run_without_width
  (V E : Type) (tasks : list (task V E)) (b : Z) :
  tasks <> [] -> (b <= 0)%Z ->
  let s0 := run b (constructor tasks) in
  status s0 = Resolved [] /\ log s0 = [] /\ rejection s0 = None /\ nf step s0.
Proof.
  intros _ Hb s0. subst s0. rewrite run_initial.
  assert (Hw : width b tasks = 0) by (unfold width; lia).
  rewrite Hw. split; [reflexivity|]. split; [reflexivity|]. split; [reflexivity|].
  apply nf_unsettled. reflexivity.
Qed.

(** C10 on the rejection test's tasks with width 0. *)
Lemma run_without_width_witness :
  status (run 0 (constructor one_fails)) = Resolved []
  /\ log (run 0 (constructor one_fails)) = [].
Proof.
  destruct (run_without_width nat string one_fails 0%Z) as (Hst & Hlog & _);
    [discriminate|lia|].
  split; [exact Hst|exact Hlog].
Defined.

(** *** More properties of [Concurrency] *)

(** X9. A rejection cancels nothing: after [run] has rejected, a worker that
    is still suspended is resumed as before, changes the results, the cursor,
    the workers and the log exactly as it would have if nothing had been
    rejected, and so may call further tasks. *)
Theorem rejection_does_not_cancel
  (V E : Type) (s : state V E) (err : error E) (w i : nat) (o : settlement V E) :
  status s = RejectedWith err ->
  executing s !! w = Some (Awaiting i o) ->
  exists s' seen',
    resume w s = Some s'
    /\ status s' = RejectedWith err
    /\ resume w (with_rejection None s) = Some (with_rejection seen' s').
Proof.
  intros Hst Hw.
  destruct (resume_awaiting _ _ _ _ Hw) as [s' Hs'].
  destruct (resume_ignores_rejection _ _ _ None Hs') as [seen' Hseen].
  exists s', seen'. split; [exact Hs'|]. split; [|exact Hseen].
  rewrite <- Hst. apply status_kept.
  - eapply rtc_once. exists w. now apply resume_turn.
  - rewrite Hst. discriminate.
Qed.

(** X9 on the rejection test: after the rejection of the second task, the
    worker of slot 0 goes on and calls the second task again. *)
Lemma rejection_does_not_cancel_witness :
  exists s s' : state nat string,
    play [1] (run 2 (constructor one_fails)) = Some s
    /\ status s = RejectedWith (TaskError "Failed")
    /\ resume 0 s = Some s'
    /\ calls 1 (log s) = 1 /\ calls 1 (log s') = 2.
Proof.
  destruct (play [1] (run 2 (constructor one_fails))) as [s|] eqn:Hs;
    [|discriminate Hs].
  assert (Hst : status s = RejectedWith (TaskError "Failed"))
    by (vm_compute in Hs; injection Hs as <-; reflexivity).
  destruct (rejection_does_not_cancel nat string s
              (TaskError "Failed") 0 0 (Fulfills 1))
    as (s' & seen' & Hs' & _ & _).
  - exact Hst.
  - vm_compute in Hs. injection Hs as <-. reflexivity.
  - exists s, s'. split; [reflexivity|]. split; [exact Hst|]. split; [exact Hs'|].
    vm_compute in Hs. injection Hs as <-.
    vm_compute in Hs'. injection Hs' as <-. split; reflexivity.
Defined.

(** X10. A width above the number of tasks is the width equal to it: [run]
    starts one worker per task, in the same state, and with deterministic
    fulfilling tasks it resolves with their values in slot order. *)
Theorem width_above_length
  (V E : Type) (tasks : list (task V E)) (b : Z) :
  (Z.of_nat (length tasks) <= b)%Z ->
  run b (constructor tasks) = run (Z.of_nat (length tasks)) (constructor tasks)
  /\ length (executing (run b (constructor tasks))) = length tasks
  /\ (forall vs, tasks = fulfilling vs -> vs <> [] ->
      forall s, rtc step (run b (constructor tasks)) s -> nf step s ->
                status s = Resolved (Some <$> vs)).
Proof.
  intros Hb.
  assert (Hw : width b tasks = length tasks) by (unfold width; lia).
  split; [|split].
  - rewrite !run_initial, Hw. f_equal. unfold width. lia.
  - rewrite run_initial, Hw. simpl. rewrite length_imap, length_take. lia.
  - intros vs -> Hne s Hreach Hnf. apply inv_reachable in Hreach.
    rewrite length_fulfilling in Hw.
    eapply resolved_in_order; [exact Hreach| |exact Hnf].
    rewrite Hw. destruct vs; [congruence|simpl; lia].
Qed.

(** X10 on the two tasks of the test, with width 10. *)
Lemma width_above_length_witness :
  (status <$> play [1; 0; 1] (run 10 (constructor two_ok)))
  = Some (Resolved [Some 1; Some 2]).
Proof.
  destruct (width_above_length nat string two_ok 10) as (_ & _ & Hres);
    [simpl; lia|].
  destruct (play [1; 0; 1] (run 10 (constructor two_ok))) as [s|] eqn:Hs;
    [|discriminate Hs].
  simpl. f_equal. apply (Hres [1; 2]); [reflexivity|discriminate| |].
  - apply (play_rtc _ _ _ Hs).
  - apply nf_unsettled. vm_compute in Hs. injection Hs as <-. reflexivity.
Defined.

(** X11. In every state of every run, for every task list and width: no
    task has been called more than twice, the first one and those outside
    the initial window not more than once, none at all past the end of the
    list; with a width of 1 or less no task is called twice. *)
Theorem calls_bounded
  (V E : Type) (tasks : list (task V E)) (b : Z) (s : state V E) (i : nat) :
  rtc step (run b (constructor tasks)) s ->
  calls i (log s) <= 2
  /\ calls 0 (log s) <= 1
  /\ ((Z.min b (Z.of_nat (length tasks)) <= Z.of_nat i)%Z -> calls i (log s) <= 1)
  /\ (length tasks <= i -> calls i (log s) = 0)
  /\ ((b <= 1)%Z -> calls i (log s) <= 1).
Proof.
  intros Hreach. apply inv_reachable in Hreach.
  pose proof (inv_index _ _ _ Hreach) as Hidx.
  rewrite !(inv_calls _ _ _ Hreach). unfold width.
  repeat split; intros; repeat case_decide; lia.
Qed.

Lemma calls_bounded_witness :
  exists s : state nat string,
    rtc step (run 3 (constructor ten_ok)) s /\ calls 2 (log s) <= 2.
Proof.
  pose (r := play [0; 1; 2; 2; 0; 1; 1] (run 3 (constructor ten_ok))).
  assert (Hr : is_Some r) by (vm_compute; eauto).
  destruct Hr as [s Hs]. exists s.
  assert (Hreach : rtc step (run 3 (constructor ten_ok)) s)
    by exact (play_rtc _ _ _ Hs).
  split; [exact Hreach|].
  apply (calls_bounded nat string ten_ok 3 s 2 Hreach).
Defined.

(** X12. In every state of every run the vector is not longer than the task
    list, and a value in slot [i] is one that a call of task [i] produced:
    a slot never holds the value of another task, also when tasks are called
    twice or when the run fails. *)
Theorem results_come_from_their_task
  (V E : Type) (tasks : list (task V E)) (b : Z) (s : state V E) :
  rtc step (run b (constructor tasks)) s ->
  length (results s) <= length tasks
  /\ forall i v, read (results s) i = Some v ->
       i < length tasks
       /\ exists t k, tasks !! i = Some t /\ t k = Fulfills v.
Proof.
  intros Hreach. apply inv_reachable in Hreach.
  split; [apply (inv_results_length _ _ _ Hreach)|].
  intros i v Hv. destruct (inv_results _ _ _ Hreach _ _ Hv) as (t & k & Ht & Hk).
  split; [eapply lookup_lt_Some; eauto|eauto].
Qed.

Lemma results_come_from_their_task_witness :
  exists s : state nat string,
    rtc step (run 2 (constructor one_fails)) s /\ length (results s) <= 3.
Proof.
  pose (r := play [0; 1] (run 2 (constructor one_fails))).
  assert (Hr : is_Some r) by (vm_compute; eauto).
  destruct Hr as [s Hs]. exists s.
  assert (Hreach : rtc step (run 2 (constructor one_fails)) s)
    by exact (play_rtc _ _ _ Hs).
  split; [exact Hreach|].
  apply (results_come_from_their_task nat string one_fails 2 s Hreach).
Defined.



(** X14. With width 1 and deterministic tasks of which task [f] is the first
    to reject: tasks are never called twice, no task after [f] is ever
    called, and every schedule ends with [run] rejected with the error of
    task [f], each task up to [f] having been called exactly once. *)
Theorem sequential_fail_fast
  (V E : Type) (outs : list (settlement V E)) (f : nat) (e : E) (s : state V E) :
  outs !! f = Some (RejectsWith e) ->
  (forall j, j < f -> exists v, outs !! j = Some (Fulfills v)) ->
  rtc step (run 1 (constructor (settling outs))) s ->
  (forall j, calls j (log s) <= 1)
  /\ (forall j, f < j -> calls j (log s) = 0)
  /\ (nf step s ->
      status s = RejectedWith (TaskError e)
      /\ forall j, j <= f -> calls j (log s) = 1).
Proof.
  intros Hf Hbefore Hreach.
  pose proof (inv_reachable _ _ _ Hreach) as I.
  pose proof (length_settling outs) as Hlen.
  assert (Hin : f < length outs) by (eapply lookup_lt_Some; eauto).
  assert (Hone : width 1 (settling outs) = 1) by (unfold width; rewrite Hlen; lia).
  pose proof (sequential_cursor _ _ _ _ _ Hone Hf Hreach) as Hcur.
  rewrite Hone in I.
  assert (Hcalls : forall j, calls j (log s)
            = (if decide (j < 1) then 1 else 0)
              + (if decide (1 <= j <= index s) then 1 else 0))
    by apply (inv_calls _ _ _ I).
  split; [|split].
  - intros j. rewrite Hcalls. repeat case_decide; lia.
  - intros j Hj. rewrite Hcalls. repeat case_decide; lia.
  - intros Hnf.
    destruct (rejected_at_end outs 1 s) as (j & e' & Hrej & Hlogged & Hj);
      [lia|eauto|exact Hreach|exact Hnf|].
    assert (Hcalled : 0 < calls j (log s))
      by (eapply rejected_was_called; [exact Hreach|exact Hlogged]).
    assert (Hjf : j = f).
    { destruct (Nat.lt_trichotomy j f) as [Hlt|[Heq|Hgt]]; [|exact Heq|].
      - destruct (Hbefore _ Hlt) as [v Hv]. congruence.
      - rewrite Hcalls in Hcalled. repeat case_decide; lia. }
    subst j. assert (e' = e) by congruence. subst e'.
    split; [unfold status; now rewrite Hrej|].
    intros j' Hj'. rewrite Hcalls in *. repeat case_decide; lia.
Qed.

(** X14 on the rejection test run with width 1: the failure of the second
    task is rethrown once, and the third task is never called. *)
Lemma sequential_fail_fast_witness :
  exists s : state nat string,
    play [0; 0; 0] (run 1 (constructor one_fails)) = Some s
    /\ status s = RejectedWith (TaskError "Failed")
    /\ calls 2 (log s) = 0.
Proof.
  destruct (play [0; 0; 0] (run 1 (constructor one_fails))) as [s|] eqn:Hs;
    [|discriminate Hs].
  exists s. split; [reflexivity|].
  destruct (sequential_fail_fast nat string
              [Fulfills 1; RejectsWith "Failed"; Fulfills 3] 1 "Failed" s)
    as (_ & Hafter & Hend).
  - reflexivity.
  - intros [|j] Hj; [eexists; reflexivity|lia].
  - apply (play_rtc _ _ _ Hs).
  - split; [|apply Hafter; lia].
    apply Hend, nf_unsettled. vm_compute in Hs. injection Hs as <-. reflexivity.
Defined.

End Concurrency.

(** ** Fetcher and fetchLines *)

Module Fetcher.

Section Run.
Context {Num : Type} `{Lines.NumberModel Num} `{Lines.Collator} {V E : Type}.

(** The options of [run]: [path] names the destination of a quote, and
    [handler path line] is the task that writes the line, given as the
    settlements of its successive calls. *)
Record options := {
  path : string -> string;
  handler : string -> string -> Concurrency.task V E
}.

(** The two private fields; [httpClient] is any object with a [get], given
    by how [get url] completes. *)
Record fetcher := {
  httpClient : string -> Http.completion (Lines.payload Num);
  quotes : list string
}.

(** Why [run] can reject before any task is built: [get] threw, or it
    returned [undefined] and [data.rates] throws a [TypeError]. *)
Inductive failure :=
| ClientError (e : Http.error)
| NoPayload.

(** [lines.map(([quote, line]) => ...)]: [path] is called once per line, in
    order, and each task calls the handler with the path and the line. *)
Definition tasks_of (o : options) (lines : list (string * string))
  : list (Concurrency.task V E) :=
  map (fun ql => handler o (path o (fst ql)) (snd ql)) lines.

Definition path_calls (lines : list (string * string)) : list string :=
  map fst lines.

(** [run] up to the suspension in [Concurrency.run]: the lines and the state
    of the scheduler, or the failure. *)
Definition start (batchSize : Z) (got : Http.completion (Lines.payload Num))
  (requested : list string) (o : options)
  : failure + list (string * string) * Concurrency.state V E :=
  match got with
  | Http.Return data =>
      let lines := Lines.dataToLines data requested in
      inr (lines,
           Concurrency.run batchSize (Concurrency.constructor (tasks_of o lines)))
  | Http.ReturnUndefined => inl NoPayload
  | Http.Throw e => inl (ClientError e)
  end.

(** [Fetcher.run] of [utils.js], with its window of 4. *)
Definition run (f : fetcher) (url : string) (o : options) :=
  start 4 (httpClient f url) (quotes f) o.

Lemma length_tasks_of o lines : length (tasks_of o lines) = length lines.
Proof. unfold tasks_of. apply length_map. Qed.

(** The task of slot [i] is the handler applied to the path of the quote of
    line [i] and to that line. *)
Lemma tasks_of_lookup o lines i t :
  tasks_of o lines !! i = Some t <->
  exists q line, lines !! i = Some (q, line) /\ t = handler o (path o q) line.
Proof.
  unfold tasks_of. change (map ?f lines) with (f <$> lines).
  rewrite list_lookup_fmap. destruct (lines !! i) as [[q line]|]; simpl; split.
  - intros [= <-]. eauto.
  - intros (q' & line' & [= <- <-] & ->). reflexivity.
  - discriminate.
  - intros (q' & line' & [=] & _).
Qed.

Lemma tasks_of_all_fulfil o lines :
  (forall p line k, exists v, handler o p line k = Concurrency.Fulfills v) ->
  Concurrency.all_fulfil (tasks_of o lines).
Proof.
  intros Hall i t k Ht. apply tasks_of_lookup in Ht.
  destruct Ht as (q & line & _ & ->). apply Hall.
Qed.

(** The workers that [Concurrency.run] starts on the tasks of [lines]. *)
Lemma tasks_of_started o lines k :
  imap (fun i (t : Concurrency.task V E) => Concurrency.Awaiting i (t 0))
    (take k (tasks_of o lines))
  = imap (fun i ql =>
            Concurrency.Awaiting i (handler o (path o (fst ql)) (snd ql) 0))
      (take k lines).
Proof.
  apply list_eq. intros i. rewrite !list_lookup_imap.
  destruct (decide (i < k)) as [Hlt|Hge].
  - rewrite !lookup_take_lt by exact Hlt.
    unfold tasks_of. change (map ?f lines) with (f <$> lines).
    rewrite list_lookup_fmap. now destruct (lines !! i).
  - rewrite !lookup_take_ge by lia. reflexivity.
Qed.

(** The retries and the timeout of [CONFIG]. *)
Definition config_options : Http.options :=
  {| Http.opt_retries := Some 3%Z; Http.opt_timeout := Some 2000%Z |}.

(** The task of a line in [fetchLines]: the handler is called on
    [${CONFIG.basePath}/EUR/${options.name(quote)}]. *)
Definition under_base (name : string -> string)
  (h : string -> string -> Concurrency.task V E) : options :=
  {| path := fun quote => "./data/v1/EUR/" ++ name quote; handler := h |}.

(** [fetchLines] of [index.js]: [httpGet] with the settings of [CONFIG], the
    lines of the currencies of [CONFIG], and a window of 100. *)
Definition fetchLines (net : Http.network (Lines.payload Num))
  (currencies : list string) (url : string)
  (name : string -> string) (h : string -> string -> Concurrency.task V E) :=
  start 100 (fst (Http.httpGet net url (Some config_options))) currencies
    (under_base name h).

End Run.

Arguments options : clear implicits.
Arguments fetcher : clear implicits.

#[local] Existing Instance Lines.decimal_number.
#[local] Existing Instance Lines.code_unit_collator.

(** The handler of the tests, which always resolves. *)
Definition resolving : string -> string -> Concurrency.task unit string :=
  fun _ _ _ => Concurrency.Fulfills tt.

Definition to_txt : options unit string :=
  {| path := fun quote => "/path/" ++ quote ++ ".txt"; handler := resolving |}.

(** A handler that resolves with its two arguments. *)
Definition echoing : string -> string -> Concurrency.task (string * string) string :=
  fun p line _ => Concurrency.Fulfills (p, line).

Definition echo_txt : options (string * string) string :=
  {| path := fun quote => "/path/" ++ quote ++ ".txt"; handler := echoing |}.

(** The client of the [Fetcher] test: [get] resolves with the payload. *)
Definition with_rates (requested : list string) : fetcher Lines.decimal :=
  {| httpClient := fun _ => Http.Return Lines.payload_rates; quotes := requested |}.

(** *** Properties of [Fetcher.run] and [fetchLines] *)

(** X15. A [Fetcher] over an [HttpClient] with [r] retries. With a timeout
    that [AbortSignal.timeout] accepts, on a network whose first [r]
    requests fail: when request [r] fails too, [run] rejects with that
    failure and no task is built. With a timeout that is not accepted,
    [run] rejects with the error of [AbortSignal.timeout], whatever the
    network. A client with negative retries makes [run] reject for want of
    a payload. *)
Theorem fetcher_propagates_client_failure
  (Num : Type) (NM : Lines.NumberModel Num) (C : Lines.Collator) (V E : Type)
  (r : nat) (t : option Z) (net : Http.network (Lines.payload Num))
  (url : string) (requested : list string) (o : options V E) (e : Http.error) :
  let c := Http.constructor
             {| Http.opt_retries := Some (Z.of_nat r); Http.opt_timeout := t |} in
  let f := {| httpClient := fun u => fst (Http.get c net u); quotes := requested |} in
  (Http.timeout_accepted (Http.timeout c) = true ->
   (forall k, k < r -> Http.fails net url (Http.timeout c) k) ->
   Http.attempt_result url (net r url (Http.timeout c)) = inl e ->
   run f url o = inl (ClientError e))
  /\ (Http.timeout_accepted (Http.timeout c) = false ->
      run f url o = inl (ClientError (Http.DelayOutOfRange (Http.timeout c))))
  /\ (forall r', (r' < 0)%Z ->
      let c' := Http.constructor
                  {| Http.opt_retries := Some r'; Http.opt_timeout := t |} in
      run {| httpClient := fun u => fst (Http.get c' net u); quotes := requested |}
        url o = inl NoPayload).
Proof.
  intros c f.
  assert (Hr : Http.retries c = Z.of_nat r) by apply Http.or_default_0.
  split; [|split].
  - intros Hacc Hfail He. unfold run, start. cbn [httpClient f].
    pose proof (Http.attempts_to_the_last net url (Http.retries c) (Http.timeout c)
                  (Http.retries c + 1) r 0 Http.no_effects Hacc) as Hloop.
    unfold Http.get. replace (Z.to_nat (Http.retries c + 1)) with (S r) by lia.
    specialize (Hloop ltac:(lia) Hfail). cbv zeta in Hloop.
    destruct (Http.attempts net url (Http.retries c) (Http.timeout c)
                (Http.retries c + 1)%Z (S r) 0%Z Http.no_effects) as [done w'].
    destruct Hloop as (Hdone & _).
    change (length (Http.requests Http.no_effects)) with 0 in Hdone.
    cbn [Nat.add] in Hdone. rewrite He in Hdone. cbn [fst]. now rewrite Hdone.
  - intros Hacc. unfold run, start. cbn [httpClient f].
    unfold Http.get. replace (Z.to_nat (Http.retries c + 1)) with (S r) by lia.
    rewrite Http.attempts_rejected_delay by (trivial; lia). reflexivity.
  - intros r' Hr' c'. unfold run, start. cbn [httpClient].
    unfold Http.get.
    assert (Hc : Http.retries c' = r') by apply Http.or_default_0.
    rewrite Hc. replace (Z.to_nat (r' + 1)) with 0 by lia. reflexivity.
Qed.

(** X15 with one retry on a network that always fails, as in the test; and
    with a timeout of [2 ^ 32]. *)
Lemma fetcher_propagates_client_failure_witness :
  let c := Http.constructor
             {| Http.opt_retries := Some 1%Z; Http.opt_timeout := None |} in
  let c' := Http.constructor
              {| Http.opt_retries := Some 1%Z;
                 Http.opt_timeout := Some 4294967296%Z |} in
  let down : Http.network (Lines.payload Lines.decimal) :=
    fun _ _ _ => inl (Http.Raised "Network error") in
  run {| httpClient := fun u => fst (Http.get c down u); quotes := ["USD"] |}
    "http://test.com" to_txt
  = inl (ClientError (Http.Raised "Network error"))
  /\ run {| httpClient := fun u => fst (Http.get c' down u); quotes := ["USD"] |}
       "http://test.com" to_txt
     = inl (ClientError (Http.DelayOutOfRange 4294967296)).
Proof.
  intros c c' down. split.
  - destruct (fetcher_propagates_client_failure Lines.decimal _ _ unit string 1 None
                down "http://test.com" ["USD"] to_txt (Http.Raised "Network error"))
      as (Hfail & _).
    apply Hfail.
    + reflexivity.
    + intros k _. eexists. reflexivity.
    + reflexivity.
  - destruct (fetcher_propagates_client_failure Lines.decimal _ _ unit string 1
                (Some 4294967296%Z) down "http://test.com" ["USD"] to_txt
                (Http.Raised "Network error"))
      as (_ & Hrefused & _).
    apply Hrefused. reflexivity.
Defined.

(** X16. When no key of the payload is requested, [run] builds no task:
    [path] and the handler are never called and the scheduler is resolved
    at once, whatever the window. *)
Theorem fetcher_without_lines
  (Num : Type) (NM : Lines.NumberModel Num) (C : Lines.Collator) (V E : Type)
  (b : Z) (data : Lines.payload Num) (requested : list string) (o : options V E) :
  (forall q r, In (q, r) (Lines.rates data) -> ~ In q requested) ->
  exists s,
    start b (Http.Return data) requested o = inr ([], s)
    /\ path_calls (Lines.dataToLines data requested) = []
    /\ Concurrency.status s = Concurrency.Resolved []
    /\ Concurrency.promises s = []
    /\ Concurrency.log s = []
    /\ nf Concurrency.step s.
Proof.
  intros Hdis. unfold start.
  rewrite (Lines.dataToLines_no_match data requested Hdis).
  eexists. split; [reflexivity|]. rewrite Concurrency.run_initial.
  assert (Hw : Concurrency.width b (tasks_of o []) = 0)
    by (unfold Concurrency.width; simpl; lia).
  rewrite Hw. split; [reflexivity|]. split; [reflexivity|].
  split; [reflexivity|]. split; [reflexivity|].
  apply Concurrency.nf_unsettled. reflexivity.
Qed.

(** X16 on the test with no requested quote. *)
Lemma fetcher_without_lines_witness :
  exists s,
    run (with_rates []) "http://example.org" to_txt = inr ([], s)
    /\ Concurrency.status s = Concurrency.Resolved [].
Proof.
  destruct (fetcher_without_lines Lines.decimal _ _ unit string 4
              Lines.payload_rates [] to_txt) as (s & Hs & _ & Hst & _).
  - intros q r _ [].
  - exists s. split; [exact Hs|exact Hst].
Defined.

(** X17. When [get] returns a payload: [run] starts one worker on each of
    the first [min b n] lines in sorted order, each awaiting the handler
    called with the path of the quote of its line and with that line; at
    any time, the call awaited at slot [i] and the value stored in slot [i]
    are those of the handler on the path and the line of line [i]; and when
    every call of the handler fulfils and the window is at least 1, at the
    end of every schedule the scheduler is resolved with one such value per
    line. *)
Theorem fetcher_handles_every_line
  (Num : Type) (NM : Lines.NumberModel Num) (C : Lines.Collator) (V E : Type)
  (b : Z) (data : Lines.payload Num) (requested : list string) (o : options V E) :
  let lines := Lines.dataToLines data requested in
  let s0 := Concurrency.run b (Concurrency.constructor (tasks_of o lines)) in
  start b (Http.Return data) requested o = inr (lines, s0)
  /\ Concurrency.executing s0
     = imap (fun i ql =>
               Concurrency.Awaiting i (handler o (path o (fst ql)) (snd ql) 0))
         (take (Z.to_nat (Z.min b (Z.of_nat (length lines)))) lines)
  /\ (forall s w i out,
        rtc Concurrency.step s0 s ->
        Concurrency.executing s !! w = Some (Concurrency.Awaiting i out) ->
        exists q line k,
          lines !! i = Some (q, line) /\ out = handler o (path o q) line k)
  /\ (forall s i v,
        rtc Concurrency.step s0 s ->
        Concurrency.read (Concurrency.results s) i = Some v ->
        exists q line k,
          lines !! i = Some (q, line)
          /\ handler o (path o q) line k = Concurrency.Fulfills v)
  /\ ((forall p line k, exists v, handler o p line k = Concurrency.Fulfills v) ->
      (1 <= b)%Z ->
      forall s, rtc Concurrency.step s0 s -> nf Concurrency.step s ->
        exists vector,
          Concurrency.status s = Concurrency.Resolved vector
          /\ forall i q line, lines !! i = Some (q, line) ->
               exists v k,
                 Concurrency.read vector i = Some v
                 /\ handler o (path o q) line k = Concurrency.Fulfills v).
Proof.
  intros lines s0. split; [reflexivity|]. split; [|split; [|split]].
  - subst s0. rewrite Concurrency.run_initial.
    cbn [Concurrency.executing Concurrency.initial].
    unfold Concurrency.width. rewrite length_tasks_of. apply tasks_of_started.
  - intros s w i out Hreach Hw.
    pose proof (Concurrency.inv_reachable _ _ _ Hreach) as I.
    destruct (Concurrency.inv_awaiting _ _ _ I _ _ _ Hw) as (_ & t & k & Ht & ->).
    apply tasks_of_lookup in Ht. destruct Ht as (q & line & Hi & ->). eauto.
  - intros s i v Hreach Hv.
    pose proof (Concurrency.inv_reachable _ _ _ Hreach) as I.
    destruct (Concurrency.inv_results _ _ _ I _ _ Hv) as (t & k & Ht & Hk).
    apply tasks_of_lookup in Ht. destruct Ht as (q & line & Hi & ->). eauto.
  - intros Hall Hb s Hreach Hnf.
    pose proof (Concurrency.inv_reachable _ _ _ Hreach) as I.
    pose proof (Concurrency.no_rejection _ _ _ I (tasks_of_all_fulfil _ _ Hall)) as Hrej.
    exists (Concurrency.results s).
    destruct (decide (length lines = 0)) as [Hzero|Hpos].
    { pose proof (Concurrency.inv_size _ _ _ I) as Hsize.
      unfold Concurrency.width in Hsize. rewrite length_tasks_of, Hzero in Hsize.
      replace (Z.to_nat (Z.min b (Z.of_nat 0))) with 0 in Hsize by lia.
      apply nil_length_inv in Hsize. split.
      - apply Concurrency.status_resolved; [exact Hrej|].
        intros w x Hw. rewrite Hsize in Hw. discriminate Hw.
      - apply nil_length_inv in Hzero. rewrite Hzero. intros i q line [=]. }
    assert (Hn : 1 <= length lines) by lia.
    destruct (Concurrency.end_of_run _ _ _ I) as (Hfin & _ & Hfull);
      [unfold Concurrency.width; rewrite length_tasks_of; lia|exact Hnf|exact Hrej|].
    split; [now apply Concurrency.status_resolved|].
    intros i q line Hi.
    destruct (Hfull i) as [v Hv].
    { rewrite length_tasks_of. eapply lookup_lt_Some; eauto. }
    destruct (Concurrency.inv_results _ _ _ I _ _ Hv) as (t & k & Ht & Hk).
    apply tasks_of_lookup in Ht. destruct Ht as (q' & line' & Hi' & ->).
    rewrite Hi in Hi'. injection Hi' as <- <-. eauto.
Qed.

(** X17 on the [Fetcher] test, with a handler that resolves with its
    arguments: the lines of EUR and USD are handled first, in that order,
    each with its path; and at the end of a schedule the vector holds the
    arguments of the two lines. *)
Lemma fetcher_handles_every_line_witness :
  exists s0 s,
    run (with_rates ["USD"; "EUR"]) "http://example.org" echo_txt
    = inr ([("EUR", "2024-01-01,0.85"); ("USD", "2024-01-01,1")], s0)
    /\ Concurrency.executing s0
       = [Concurrency.Awaiting 0
            (Concurrency.Fulfills ("/path/EUR.txt", "2024-01-01,0.85"));
          Concurrency.Awaiting 1
            (Concurrency.Fulfills ("/path/USD.txt", "2024-01-01,1"))]
    /\ Concurrency.play [1; 0; 1] s0 = Some s
    /\ Concurrency.status s
       = Concurrency.Resolved [Some ("/path/EUR.txt", "2024-01-01,0.85");
                               Some ("/path/USD.txt", "2024-01-01,1")].
Proof.
  destruct (fetcher_handles_every_line Lines.decimal _ _ (string * string) string 4
              Lines.payload_rates ["USD"; "EUR"] echo_txt) as (Hstart & Hexec & _).
  eexists. eexists. split; [exact Hstart|]. split; [exact Hexec|].
  split; reflexivity.
Defined.

(** X18. [fetchLines] issues between 1 and 4 requests, each to the given
    url with a timeout of 2000; when [httpGet] throws it rejects with that
    error before any task is built; and every call of the handler that a
    worker awaits, at any time, is for a line of a currency of [CONFIG]
    present in the payload, on the path [./data/v1/EUR/] followed by the
    name of that currency. *)
Theorem fetchLines_requests_and_paths
  (Num : Type) (NM : Lines.NumberModel Num) (C : Lines.Collator) (V E : Type)
  (net : Http.network (Lines.payload Num)) (currencies : list string)
  (url : string) (name : string -> string)
  (h : string -> string -> Concurrency.task V E) :
  (exists m,
      1 <= m <= 4
      /\ Http.requests (snd (Http.httpGet net url (Some config_options)))
         = replicate m (url, 2000%Z))
  /\ (forall e,
        fst (Http.httpGet net url (Some config_options)) = Http.Throw e ->
        fetchLines net currencies url name h = inl (ClientError e))
  /\ (forall lines s0 s w i out,
        fetchLines net currencies url name h = inr (lines, s0) ->
        rtc Concurrency.step s0 s ->
        Concurrency.executing s !! w = Some (Concurrency.Awaiting i out) ->
        exists q line k,
          In q currencies /\ lines !! i = Some (q, line)
          /\ out = h ("./data/v1/EUR/" ++ name q) line k).
Proof.
  split; [|split].
  - unfold Http.httpGet. simpl.
    destruct (Http.attempts_trace net url 3 2000 3 3 0 Http.no_effects)
      as (m & Hm & Hreq & _); [reflexivity|lia|].
    exists m. split; [lia|]. exact Hreq.
  - intros e He. unfold fetchLines, start. now rewrite He.
  - intros lines s0 s w i out Hstart Hreach Hw. unfold fetchLines, start in Hstart.
    destruct (fst (Http.httpGet net url (Some config_options))) as [data| |e];
      try discriminate Hstart.
    injection Hstart as <- <-.
    pose proof (Concurrency.inv_reachable _ _ _ Hreach) as I.
    destruct (Concurrency.inv_awaiting _ _ _ I _ _ _ Hw) as (_ & t & k & Ht & ->).
    apply tasks_of_lookup in Ht. destruct Ht as (q & line & Hi & ->).
    exists q, line, k. split; [|split; [exact Hi|reflexivity]].
    assert (Hq : In (q, line) (Lines.dataToLines data currencies))
      by (apply list_elem_of_In, list_elem_of_lookup; eauto).
    apply Lines.In_dataToLines in Hq. destruct Hq as (r & _ & Hq & _). exact Hq.
Qed.

(** X18 on a network that is down: four requests, then the rejection. *)
Lemma fetchLines_requests_and_paths_witness :
  let down : Http.network (Lines.payload Lines.decimal) :=
    fun _ _ _ => inl (Http.Raised "Network error") in
  fetchLines down ["EUR"; "USD"] "https://example.org/api" (fun q => q ++ ".csv")
    resolving
  = inl (ClientError (Http.Raised "Network error"))
  /\ length (Http.requests
               (snd (Http.httpGet down "https://example.org/api" (Some config_options))))
     = 4.
Proof.
  intros down.
  destruct (fetchLines_requests_and_paths Lines.decimal _ _ unit string down
              ["EUR"; "USD"] "https://example.org/api" (fun q => q ++ ".csv")
              resolving) as (_ & Hthrow & _).
  split; [|reflexivity]. apply Hthrow. reflexivity.
Defined.

End Fetcher.

(** ** env and CONFIG of index.js *)

Module Config.

(** [process.env]: the value of a variable, when it is defined. *)
Definition environment := string -> option string.

(** [new Error(`"${name}" environment variable is not defined`)] *)
Inductive error :=
| NotDefined (name : string).

Definition env (process_env : environment) (name : string) : error + string :=
  match process_env name with
  | None => inl (NotDefined name)
  | Some value => inr value
  end.

Record config := {
  url : string;
  latestUrl : string;
  retries : Z;
  timeout : Z;
  currencies : list string;
  basePath : string
}.

(** The function that builds [CONFIG]. [stamp ms] stands for
    [new Date(ms).toJSON().substring(0, 10)], [now] for [Date.now()] and
    [codes] for the set of currency codes. *)
Definition CONFIG (process_env : environment) (stamp : Z -> string) (now : Z)
  (codes : list string) : error + config :=
  match env process_env "AG_BASE_URL" with
  | inl e => inl e
  | inr baseUrl =>
      match env process_env "AG_API_KEY" with
      | inl e => inl e
      | inr apiKey =>
          let day := 86400000%Z in
          let yesterdayStamp := stamp (now - day)%Z in
          let todayStamp := stamp now in
          inr {| url := baseUrl ++ "/" ++ yesterdayStamp ++ "?access_key=" ++ apiKey;
                 latestUrl := baseUrl ++ "/" ++ todayStamp ++ "?access_key=" ++ apiKey;
                 retries := 3;
                 timeout := 2000;
                 currencies := codes;
                 basePath := "./data/v1" |}
      end
  end.

(** X19. [CONFIG] is built exactly when both [AG_BASE_URL] and [AG_API_KEY]
    are defined, an empty value counting as defined; otherwise loading fails
    with the error of the first missing variable, [AG_BASE_URL] before
    [AG_API_KEY]; and the two urls differ only by their date stamp. *)
Theorem CONFIG_needs_both_variables
  (process_env : environment) (stamp : Z -> string) (now : Z)
  (codes : list string) :
  ((exists c, CONFIG process_env stamp now codes = inr c)
   <-> is_Some (process_env "AG_BASE_URL") /\ is_Some (process_env "AG_API_KEY"))
  /\ (process_env "AG_BASE_URL" = None ->
      CONFIG process_env stamp now codes = inl (NotDefined "AG_BASE_URL"))
  /\ (is_Some (process_env "AG_BASE_URL") -> process_env "AG_API_KEY" = None ->
      CONFIG process_env stamp now codes = inl (NotDefined "AG_API_KEY"))
  /\ (forall c, CONFIG process_env stamp now codes = inr c ->
      exists base key,
        process_env "AG_BASE_URL" = Some base
        /\ process_env "AG_API_KEY" = Some key
        /\ url c = base ++ "/" ++ stamp (now - 86400000)%Z ++ "?access_key=" ++ key
        /\ latestUrl c = base ++ "/" ++ stamp now ++ "?access_key=" ++ key).
Proof.
  unfold CONFIG, env.
  destruct (process_env "AG_BASE_URL") as [base|];
    destruct (process_env "AG_API_KEY") as [key|].
  - split; [split; [intros _; split; eauto|intros _; eauto]|].
    split; [discriminate|]. split; [discriminate|].
    intros c [= <-]. exists base, key. repeat split.
  - split; [split; [intros [c Hc]; discriminate Hc|intros [_ [k Hk]]; discriminate Hk]|].
    split; [discriminate|]. split; [reflexivity|].
    intros c Hc. discriminate Hc.
  - split; [split; [intros [c Hc]; discriminate Hc|intros [[k Hk] _]; discriminate Hk]|].
    split; [reflexivity|]. split; [intros [k Hk]; discriminate Hk|].
    intros c Hc. discriminate Hc.
  - split; [split; [intros [c Hc]; discriminate Hc|intros [[k Hk] _]; discriminate Hk]|].
    split; [reflexivity|]. split; [intros [k Hk]; discriminate Hk|].
    intros c Hc. discriminate Hc.
Qed.

(** X19 with an empty key: the configuration is built, the key is empty. *)
Lemma CONFIG_needs_both_variables_witness :
  let process_env : environment := fun name =>
    if String.eqb name "AG_BASE_URL" then Some "https://example.org/api"
    else if String.eqb name "AG_API_KEY" then Some "" else None in
  exists c, CONFIG process_env (fun _ => "2024-01-01") 0 ["EUR"] = inr c
            /\ latestUrl c = "https://example.org/api/2024-01-01?access_key=".
Proof.
  intros process_env.
  destruct (CONFIG_needs_both_variables process_env (fun _ => "2024-01-01") 0 ["EUR"])
    as (Hbuilt & _ & _ & Hurls).
  destruct (proj2 Hbuilt) as [c Hc]; [split; eexists; reflexivity|].
  exists c. split; [exact Hc|].
  destruct (Hurls c Hc) as (base & key & Hbase & Hkey & _ & Hlatest).
  injection Hbase as <-. injection Hkey as <-. exact Hlatest.
Defined.

End Config.
